(** * Russian text analysis (aelita_rdd.py): cleaner, stemmer, counter, ranker

    A shallow embedding of the text pipeline of [aelita_rdd.py] and the
    properties its specification states about it.

    Python strings are sequences of Unicode code points, and every length,
    slice and comparison of the program counts code points.  A string is
    therefore a list of code points, and the literals of the source are
    written as UTF-8 text and decoded by [utf8]. *)

From Stdlib Require Import Strings.String Strings.Ascii Strings.Byte.
From Stdlib Require Import List Bool Arith NArith ZArith Lia.
From Stdlib Require Import Permutation Sorted.
From Stdlib Require Import Floats.PrimFloat Floats.FloatOps Floats.SpecFloat.
From Stdlib Require Numbers.Cyclic.Int63.Uint63 Numbers.DecimalString.
Import ListNotations.

Set Implicit Arguments.

(** ** Strings as lists of code points *)

Definition char := N.
Definition str := list char.

Module Utf8.

(** Decoding of a UTF-8 byte sequence (1 to 4 bytes per code point).  A
    truncated trailing sequence is dropped; the literals below are all
    well formed. *)
Fixpoint decode (bs : list N) : str :=
  match bs with
  | [] => []
  | b0 :: t0 =>
    if (b0 <? 128)%N then b0 :: decode t0 else
    match t0 with
    | [] => []
    | b1 :: t1 =>
      if (b0 <? 224)%N then ((b0 mod 32) * 64 + b1 mod 64)%N :: decode t1 else
      match t1 with
      | [] => []
      | b2 :: t2 =>
        if (b0 <? 240)%N
        then ((b0 mod 16) * 4096 + (b1 mod 64) * 64 + b2 mod 64)%N :: decode t2
        else
        match t2 with
        | [] => []
        | b3 :: t3 =>
          ((b0 mod 8) * 262144 + (b1 mod 64) * 4096
           + (b2 mod 64) * 64 + b3 mod 64)%N :: decode t3
        end
      end
    end
  end.

Definition of_string (s : string) : str :=
  decode (map Byte.to_N (list_byte_of_string s)).

End Utf8.

Definition utf8 : string -> str := Utf8.of_string.

Definition char_eqb : char -> char -> bool := N.eqb.

Fixpoint str_eqb (a b : str) : bool :=
  match a, b with
  | [], [] => true
  | x :: a', y :: b' => char_eqb x y && str_eqb a' b'
  | _, _ => false
  end.

(** [word.endswith(ending)] *)
Definition endswith (word ending : str) : bool :=
  (length ending <=? length word)
  && str_eqb (skipn (length word - length ending) word) ending.

(** [word[:-n]]: a negative stop counts from the end, and [-0] is [0]. *)
Definition slice_to_neg (word : str) (n : nat) : str :=
  if n =? 0 then [] else firstn (length word - n) word.

(** ** Stable sorting

    [sorted] and [heapq.nsmallest] are stable: elements whose keys compare
    equal keep their relative order.  [leb x y] says that [x] may stand
    before [y]; an element is inserted before the first element it may
    stand before, so the earlier of two equal elements stays first. *)

Section StableSort.
Variable A : Type.
Variable leb : A -> A -> bool.

Fixpoint insert_sorted (x : A) (l : list A) : list A :=
  match l with
  | [] => [x]
  | y :: t => if leb x y then x :: l else y :: insert_sorted x t
  end.

Definition stable_sort (l : list A) : list A :=
  fold_right insert_sorted [] l.
End StableSort.

(** [sorted(l, key=len, reverse=True)]: descending by length, stable. *)
Definition sorted_len_reverse (l : list str) : list str :=
  stable_sort (fun a b => length b <=? length a) l.

(** ** 4. Stemming *)

Definition endings : list str := map utf8 [
    "ость"; "ать"; "ять"; "ить"; "еть"; "уть"; "ють"; "ат"; "ят"; "ит";
    "ет"; "ут"; "ют"; "ый"; "ий"; "ая"; "яя"; "ое"; "ее"; "ые"; "ие";
    "ов"; "ев"; "ам"; "ям"; "ами"; "ями"; "ах"; "ях"; "ом"; "ем"; "у";
    "ю"; "ем"; "им"; "шь"; "ть"; "ти"; "л"; "ла"; "ло"; "ли"; "н"; "на";
    "но"; "ны"; "ть"; "ся"; "ей"; "ой"
  ]%string.

(** The loop [for ending in ...: if ...: return word[:-len(ending)]],
    falling through to [return word]. *)
Fixpoint strip_first_ending (word : str) (candidates : list str) : str :=
  match candidates with
  | [] => word
  | ending :: rest =>
    if endswith word ending && (length ending + 2 <? length word)
    then slice_to_neg word (length ending)
    else strip_first_ending word rest
  end.

Definition simple_russian_stemmer (word : str) : str :=
  strip_first_ending word (sorted_len_reverse endings).

(** ** Stop words *)

(** [load_russian_stopwords()]: a set literal; the program only ever tests
    membership in it, so the literal is kept as written (repeated members
    included) and read through [str_in]. *)
Definition load_russian_stopwords : list str := map utf8 [
    "и"; "в"; "во"; "не"; "что"; "он"; "на"; "я"; "с"; "со"; "как"; "а";
    "то"; "все"; "она"; "так"; "его"; "но"; "да"; "ты"; "к"; "у"; "же";
    "вы"; "за"; "бы"; "по"; "только"; "ее"; "мне"; "было"; "вот"; "от";
    "меня"; "еще"; "нет"; "о"; "из"; "ему"; "теперь"; "когда"; "даже";
    "ну"; "вдруг"; "ли"; "если"; "уже"; "или"; "ни"; "быть"; "был"; "него";
    "до"; "вас"; "нибудь"; "опять"; "уж"; "вам"; "ведь"; "там"; "потом";
    "себя"; "ничего"; "ей"; "может"; "они"; "тут"; "где"; "есть"; "надо";
    "ней"; "для"; "мы"; "тебя"; "их"; "чем"; "была"; "сам"; "чтоб"; "без";
    "будто"; "чего"; "раз"; "тоже"; "себе"; "под"; "будет"; "ж"; "тогда";
    "кто"; "этот"; "того"; "потому"; "этого"; "какой"; "совсем"; "ним";
    "здесь"; "этом"; "один"; "почти"; "мой"; "тем"; "чтобы"; "нее"; "сейчас";
    "были"; "куда"; "зачем"; "всех"; "никогда"; "можно"; "при"; "наконец";
    "два"; "об"; "другой"; "хоть"; "после"; "над"; "больше"; "тот"; "через";
    "эти"; "нас"; "про"; "всего"; "них"; "какая"; "много"; "разве"; "три";
    "эту"; "моя"; "впрочем"; "хорошо"; "свою"; "этой"; "перед"; "иногда";
    "лучше"; "чуть"; "том"; "нельзя"; "такой"; "им"; "более"; "всегда";
    "конечно"; "всю"; "между"; "это"; "вот"; "вдруг"; "как"; "под"; "над";
    "при"; "после"; "перед"; "через"; "из"; "от"; "до"; "для"; "за"; "к"; "у"
  ]%string.

(** [word in stop_words] *)
Definition str_in (word : str) (stop_words : list str) : bool :=
  existsb (str_eqb word) stop_words.

(** ** 1. Text cleaning *)

(** The white space of [str.strip], [str.split] and the pattern [\s]:
    the code points for which [str.isspace] holds. *)
Definition is_space (c : char) : bool :=
  ((9 <=? c) && (c <=? 13) || (28 <=? c) && (c <=? 32)
   || (c =? 133) || (c =? 160) || (c =? 5760)
   || (8192 <=? c) && (c <=? 8202)
   || (c =? 8232) || (c =? 8233) || (c =? 8239) || (c =? 8287)
   || (c =? 12288))%N.

(** The character class [[а-яё]]: U+0430..U+044F and U+0451. *)
Definition is_cyrillic_lower (c : char) : bool :=
  ((1072 <=? c) && (c <=? 1103) || (c =? 1105))%N.

Definition space : char := 32%N.
Definition newline : char := 10%N.

Fixpoint lstrip (s : str) : str :=
  match s with
  | [] => []
  | c :: t => if is_space c then lstrip t else s
  end.

Definition rstrip (s : str) : str := rev (lstrip (rev s)).

(** [s.strip()] *)
Definition strip (s : str) : str := rstrip (lstrip s).

(** [re.sub(r'[^а-яё\s]', ' ', line)] *)
Definition sub_non_cyrillic (line : str) : str :=
  map (fun c => if is_cyrillic_lower c || is_space c then c else space) line.

(** [re.sub(r'\s+', ' ', line)]: every maximal run of white space becomes
    one space; [in_run] says that the previous character was white space. *)
Fixpoint sub_spaces_from (in_run : bool) (line : str) : str :=
  match line with
  | [] => []
  | c :: t =>
    if is_space c
    then (if in_run then sub_spaces_from true t
          else space :: sub_spaces_from true t)
    else c :: sub_spaces_from false t
  end.

Definition sub_spaces (line : str) : str := sub_spaces_from false line.

(** [line.split()]: the maximal runs of characters that are not white
    space; [cur] is the current run, last character first. *)
Fixpoint split_from (cur : str) (line : str) : list str :=
  match line with
  | [] => match cur with [] => [] | _ => [rev cur] end
  | c :: t =>
    if is_space c
    then match cur with
         | [] => split_from [] t
         | _ => rev cur :: split_from [] t
         end
    else split_from (c :: cur) t
  end.

Definition split (line : str) : list str := split_from [] line.

(** [[а-яё]+] against a whole string *)
Definition cyrillic_plus (s : str) : bool :=
  match s with
  | [] => false
  | _ => forallb is_cyrillic_lower s
  end.

(** [re.match(r'^[а-яё]+$', word)] as a truth value.  Without MULTILINE,
    [$] matches at the end of the string and also just before a newline
    that is the last character. *)
Definition re_match_cyrillic (word : str) : bool :=
  cyrillic_plus word
  || match rev word with
     | c :: body => (c =? newline)%N && cyrillic_plus (rev body)
     | [] => false
     end.

Section Cleaner.

(** [str.lower] is the Unicode case mapping of the Python runtime; the
    cleaner is defined over any such mapping. *)
Variable lower : str -> str.

(** The loop over [words]: each word is stripped, tested, and appended. *)
Fixpoint cleaned_words (stop_words : list str) (words : list str) : list str :=
  match words with
  | [] => []
  | word :: rest =>
    let word := strip word in
    if (2 <? length word) && negb (str_in word stop_words)
       && re_match_cyrillic word
    then word :: cleaned_words stop_words rest
    else cleaned_words stop_words rest
  end.

Definition clean_text (line : str) (stop_words : list str) : list str :=
  match strip line with
  | [] => []
  | _ =>
    let line := strip (lower line) in
    let line := sub_non_cyrillic line in
    let line := sub_spaces line in
    let words := split line in
    cleaned_words stop_words words
  end.

End Cleaner.

(** A case mapping for the Latin and Cyrillic alphabets: A-Z, and
    U+0400..U+042F (Ѐ-Џ move by 80, А-Я by 32); on these code points it
    is what [str.lower] does. *)
Definition lower_latin_cyrillic (s : str) : str :=
  map (fun c =>
         if (65 <=? c) && (c <=? 90) then c + 32
         else if (1024 <=? c) && (c <=? 1039) then c + 80
         else if (1040 <=? c) && (c <=? 1071) then c + 32
         else c)%N s.

(** ** 2. Word count *)

(** A pair RDD is a collection of (key, value) pairs; it is listed here in
    the order a [collect] gives.  [reduceByKey(f)] merges the values of
    equal keys with [f]: each pair joins the entry of its key, or opens a
    new entry. *)
Section ReduceByKey.
Variable V : Type.
Variable f : V -> V -> V.

Fixpoint merge_value (k : str) (v : V) (table : list (str * V))
  : list (str * V) :=
  match table with
  | [] => [(k, v)]
  | (k', v') :: rest =>
    if str_eqb k k' then (k', f v' v) :: rest
    else (k', v') :: merge_value k v rest
  end.

Definition reduceByKey (pairs : list (str * V)) : list (str * V) :=
  fold_left (fun table kv => merge_value (fst kv) (snd kv) table) pairs [].
End ReduceByKey.

(** [rdd.map(lambda word: (word, 1)).reduceByKey(lambda a, b: a + b)] *)
Definition wordcount (words : list str) : list (str * Z) :=
  reduceByKey (fun a b => a + b)%Z (map (fun word => (word, 1%Z)) words).

(** [rdd.count()] *)
Definition count (A : Type) (rdd : list A) : Z := Z.of_nat (length rdd).

(** ** 3. Ranking *)

(** [<=] on Python strings: lexicographic by code point, a proper prefix
    first. *)
Fixpoint str_leb (a b : str) : bool :=
  match a, b with
  | [], _ => true
  | _ :: _, [] => false
  | x :: a', y :: b' =>
    if (x <? y)%N then true
    else if (x =? y)%N then str_leb a' b'
    else false
  end.

(** [<=] on the tuples [(x[1], x[0])]: first component, then second. *)
Definition tuple_leb (a b : Z * str) : bool :=
  if (fst a <? fst b)%Z then true
  else if (fst a =? fst b)%Z then str_leb (snd a) (snd b)
  else false.

(** [rdd.takeOrdered(num, key)]: the [num] smallest elements by [key], in
    ascending order of [key]; [key_leb] is the order of the keys. *)
Definition takeOrdered (A K : Type) (key_leb : K -> K -> bool)
  (num : nat) (key : A -> K) (rdd : list A) : list A :=
  firstn num (stable_sort (fun x y => key_leb (key x) (key y)) rdd).

(** [takeOrdered(k, key=lambda x: -x[1])] *)
Definition top_k (k : nat) (wordcount_rdd : list (str * Z)) : list (str * Z) :=
  takeOrdered Z.leb k (fun x => - snd x)%Z wordcount_rdd.

(** The least common words: those that appear once, by word, when there
    are any; otherwise the least frequent, by count and word. *)
Definition bottom_k (k : nat) (wordcount_rdd : list (str * Z))
  : list (str * Z) :=
  let least_common_rdd := filter (fun x => (snd x =? 1)%Z) wordcount_rdd in
  let least_common_count := count least_common_rdd in
  if (least_common_count >? 0)%Z
  then takeOrdered str_leb k (fun x => fst x) least_common_rdd
  else takeOrdered tuple_leb k (fun x => (snd x, fst x)) wordcount_rdd.

(** ** Numbers of the report *)

(** Python's [int / int] is the quotient rounded to the nearest double, and
    raises [ZeroDivisionError] on a zero divisor.  For operands below 2^53
    in absolute value (every count of a corpus that can be read is) both
    convert exactly, and the quotient is the IEEE 754 division of the
    two doubles. *)
Inductive exn : Type := ZeroDivisionError.

Definition float_of_int (z : Z) : float :=
  match z with
  | Z0 => PrimFloat.zero
  | Zpos _ => PrimFloat.of_uint63 (Uint63.of_Z z)
  | Zneg p => PrimFloat.opp (PrimFloat.of_uint63 (Uint63.of_Z (Zpos p)))
  end.

Definition true_div (a b : Z) : exn + float :=
  if (b =? 0)%Z then inl ZeroDivisionError
  else inr (PrimFloat.div (float_of_int a) (float_of_int b)).

(** [(a / b) * 100] *)
Definition percent_of (a b : Z) : exn + float :=
  match true_div a b with
  | inl e => inl e
  | inr q => inr (PrimFloat.mul q (float_of_int 100))
  end.

(** [num / den] rounded to the nearest integer, ties to even
    ([0 <= num], [0 < den]). *)
Definition round_half_even (num den : Z) : Z :=
  let q := (num / den)%Z in
  let r := (num mod den)%Z in
  match (2 * r ?= den)%Z with
  | Lt => q
  | Gt => (q + 1)%Z
  | Eq => if Z.even q then q else (q + 1)%Z
  end.

(** The number of tenths nearest to [m * 2^e]. *)
Definition tenths (m : positive) (e : Z) : Z :=
  if (0 <=? e)%Z then (Zpos m * 2 ^ e * 10)%Z
  else round_half_even (Zpos m * 10) (2 ^ (- e)).

Definition decimal (z : Z) : string :=
  DecimalString.NilEmpty.string_of_uint (N.to_uint (Z.to_N z)).

(** [f"{x:.1f}"]: the decimal with one fractional digit nearest to the
    exact value of the double, ties to even. *)
Definition format_1f (x : float) : string :=
  match Prim2SF x with
  | S754_nan => "nan"
  | S754_infinity s => if s then "-inf" else "inf"
  | S754_zero s => (if s then "-" else "") ++ "0.0"
  | S754_finite s m e =>
    let t := tenths m e in
    (if s then "-" else "") ++ decimal (t / 10) ++ "." ++ decimal (t mod 10)
  end%string.

(** ** The report *)

(** What [analyze_text] prints, one constructor per kind of line; numbers
    are kept as numbers. *)
Inductive output : Type :=
| ErrorFileNotFound (file_path : string)
| FileLoaded (file_path : string)
| Heading (width : nat) (title : string)
| TotalWordsAfterCleaning (total_words : Z)
| NoWordsFound
| UniqueWords (unique_words : Z)
| ColumnsPercentage
| Columns
| RowPercentage (rank : Z) (word : str) (cnt : Z) (percentage : float)
| Row (rank : Z) (word : str) (cnt : Z)
| WordsOnlyOnce (least_common_count : Z)
| UniqueAfterStemming (stemmed_unique_words : Z)
| VocabularyReduction (reduction : float)
| WordsOnlyOnceAfterStemming (least_common_stemmed_count : Z)
| SummaryTotal (total_words : Z)
| SummaryUnique (unique_words : Z)
| SummaryUniqueStemmed (stemmed_unique_words : Z)
| SummaryMostCommon (word : str) (cnt : Z)
| SummaryMostCommonStemmed (word : str) (cnt : Z)
| SummaryReduction (reduction : float)
| Completed
| ErrorDuringAnalysis (e : exn).

(** A run prints lines and then returns a value or raises. *)
Definition run (A : Type) : Type := (list output * (exn + A))%type.

Definition ret (A : Type) (a : A) : run A := ([], inr a).

Definition bind (A B : Type) (m : run A) (k : A -> run B) : run B :=
  match m with
  | (out, inl e) => (out, inl e)
  | (out, inr a) => let (out', r) := k a in (out ++ out', r)
  end.

Definition print (o : output) : run unit := ([o], inr tt).

Definition lift (A : Type) (r : exn + A) : run A := ([], r).

Notation "x <- m ;; k" := (bind m (fun x => k))
  (at level 61, m at next level, right associativity).
Notation "m ;; k" := (bind m (fun _ => k))
  (at level 61, right associativity).

(** [for i, (word, count) in enumerate(rows, i): ... print(...)] with the
    percentage column. *)
Fixpoint print_rows_percentage (total_words : Z) (i : Z)
  (rows : list (str * Z)) : run unit :=
  match rows with
  | [] => ret tt
  | (word, cnt) :: rest =>
    percentage <- lift (percent_of cnt total_words) ;;
    print (RowPercentage i word cnt percentage) ;;
    print_rows_percentage total_words (i + 1) rest
  end.

Fixpoint print_rows (i : Z) (rows : list (str * Z)) : run unit :=
  match rows with
  | [] => ret tt
  | (word, cnt) :: rest =>
    print (Row i word cnt) ;;
    print_rows (i + 1) rest
  end.

Definition not_available : str * Z := (utf8 "N/A", 0%Z).

Section Pipeline.

(** The files that exist, with their lines, and the case mapping. *)
Variable fs : string -> option (list str).
Variable lower : str -> str.

Definition analyze_text (file_path : string) : run unit :=
  match fs file_path with
  | None => print (ErrorFileNotFound file_path)
  | Some text_rdd =>
    print (FileLoaded file_path) ;;
    (* 1. TEXT CLEANING *)
    print (Heading 50 "1. TEXT CLEANING") ;;
    let cleaned_words_rdd :=
      flat_map (fun line => clean_text lower line load_russian_stopwords)
               text_rdd in
    let total_words := count cleaned_words_rdd in
    print (TotalWordsAfterCleaning total_words) ;;
    if (total_words =? 0)%Z then print NoWordsFound
    else
      (* 2. WORDCOUNT *)
      print (Heading 50 "2. WORDCOUNT DEVELOPMENT") ;;
      let wordcount_rdd := wordcount cleaned_words_rdd in
      let unique_words := count wordcount_rdd in
      print (UniqueWords unique_words) ;;
      (* 3. TOP-50 MOST AND LEAST COMMON WORDS *)
      print (Heading 50 "3. TOP-50 MOST COMMON WORDS") ;;
      let top_50 := top_k 50 wordcount_rdd in
      print ColumnsPercentage ;;
      print_rows_percentage total_words 1 top_50 ;;
      print (Heading 50 "3. TOP-50 LEAST COMMON WORDS") ;;
      let least_common_count :=
        count (filter (fun x => (snd x =? 1)%Z) wordcount_rdd) in
      print (WordsOnlyOnce least_common_count) ;;
      let bottom_50 := bottom_k 50 wordcount_rdd in
      print Columns ;;
      print_rows 1 bottom_50 ;;
      (* 4. STEMMING *)
      print (Heading 50 "4. STEMMING APPLICATION") ;;
      let stemmed_words_rdd := map simple_russian_stemmer cleaned_words_rdd in
      let stemmed_wordcount_rdd := wordcount stemmed_words_rdd in
      let stemmed_unique_words := count stemmed_wordcount_rdd in
      print (UniqueAfterStemming stemmed_unique_words) ;;
      reduction <- lift (percent_of (unique_words - stemmed_unique_words)
                                    unique_words) ;;
      print (VocabularyReduction reduction) ;;
      (* 5. TOP-50 MOST AND LEAST COMMON WORDS AFTER STEMMING *)
      print (Heading 50 "5. TOP-50 MOST COMMON WORDS AFTER STEMMING") ;;
      let top_50_stemmed := top_k 50 stemmed_wordcount_rdd in
      print ColumnsPercentage ;;
      print_rows_percentage total_words 1 top_50_stemmed ;;
      print (Heading 50 "5. TOP-50 LEAST COMMON WORDS AFTER STEMMING") ;;
      let least_common_stemmed_count :=
        count (filter (fun x => (snd x =? 1)%Z) stemmed_wordcount_rdd) in
      print (WordsOnlyOnceAfterStemming least_common_stemmed_count) ;;
      let bottom_50_stemmed := bottom_k 50 stemmed_wordcount_rdd in
      print Columns ;;
      print_rows 1 bottom_50_stemmed ;;
      (* SUMMARY *)
      print (Heading 70 "ANALYSIS SUMMARY") ;;
      let most_common_original := hd not_available top_50 in
      let most_common_stemmed := hd not_available top_50_stemmed in
      print (SummaryTotal total_words) ;;
      print (SummaryUnique unique_words) ;;
      print (SummaryUniqueStemmed stemmed_unique_words) ;;
      print (SummaryMostCommon (fst most_common_original)
                               (snd most_common_original)) ;;
      print (SummaryMostCommonStemmed (fst most_common_stemmed)
                                      (snd most_common_stemmed)) ;;
      print (SummaryReduction reduction) ;;
      print Completed
  end.

(** [main]: the analyzer's banner, then [analyze_text('dataset.txt')]
    under [try ... except Exception]. *)
Definition main : list output :=
  match analyze_text "dataset.txt" with
  | (out, inr _) => Heading 70 "SPARK TEXT ANALYSIS - RUSSIAN LANGUAGE" :: out
  | (out, inl e) =>
    Heading 70 "SPARK TEXT ANALYSIS - RUSSIAN LANGUAGE"
    :: out ++ [ErrorDuringAnalysis e]
  end.

End Pipeline.

(** ** Notions of the specification *)

(** A rule of the stemmer matches a word when the word ends with the
    suffix and what remains has more than 2 characters. *)
Definition rule_matches (word ending : str) : Prop :=
  exists stem, word = stem ++ ending /\ 2 < length stem.

(** [prefix ++ rest] with a non-empty [rest]. *)
Definition strict_prefix (prefix word : str) : Prop :=
  exists rest, rest <> [] /\ word = prefix ++ rest.

(** A lowercase Cyrillic letter of the Russian alphabet: а to я, or ё. *)
Definition lowercase_cyrillic (c : char) : Prop :=
  (1072 <= c <= 1103)%N \/ c = 1105%N.

(** The sum of the counts of a table. *)
Definition sum_counts (table : list (str * Z)) : Z :=
  fold_right Z.add 0%Z (map snd table).

Definition str_eq_dec : forall a b : str, {a = b} + {a <> b} :=
  list_eq_dec N.eq_dec.

(** The number of times a word occurs in a sequence. *)
Definition occurrences (words : list str) (word : str) : Z :=
  Z.of_nat (count_occ str_eq_dec words word).

(** The value a table holds for a key, if any. *)
Fixpoint table_get (V : Type) (k : str) (table : list (str * V)) : option V :=
  match table with
  | [] => None
  | (k', v) :: rest => if str_eqb k k' then Some v else table_get k rest
  end.

(** Lexicographic order of strings by code point. *)
Inductive lex_le : str -> str -> Prop :=
| lex_le_nil : forall b, lex_le [] b
| lex_le_lt : forall x a y b, (x < y)%N -> lex_le (x :: a) (y :: b)
| lex_le_eq : forall x a b, lex_le a b -> lex_le (x :: a) (x :: b).

(** Order of the entries of a table by count, then by word. *)
Definition count_word_le (x y : str * Z) : Prop :=
  (snd x < snd y)%Z \/ (snd x = snd y /\ lex_le (fst x) (fst y)).

(** [rest] holds what a selection left out of [rdd], and nothing in it
    stands before a selected element in the order [R]. *)
Definition selects_least (A : Type) (R : A -> A -> Prop)
  (rdd selected : list A) : Prop :=
  exists rest, Permutation rdd (selected ++ rest)
               /\ forall x y, In x selected -> In y rest -> R x y.

(** The number of distinct words of a sequence. *)
Definition distinct (words : list str) : Z :=
  Z.of_nat (length (nodup str_eq_dec words)).

(** [(unique_original - unique_stemmed) / unique_original * 100] in
    double precision. *)
Definition vocabulary_reduction (unique_original unique_stemmed : Z) : float :=
  PrimFloat.mul
    (PrimFloat.div (float_of_int (unique_original - unique_stemmed))
                   (float_of_int unique_original))
    (float_of_int 100).

(** A file system with one file, of three lines. *)
Definition sample_lines : list str :=
  [utf8 "Привет, мир! 123 Hello"; utf8 "";
   utf8 "Новость, новостью; работать - работала"].

Definition sample_fs (file_path : string) : option (list str) :=
  if String.eqb file_path "dataset.txt" then Some sample_lines else None.

Definition sample_cleaned : list str :=
  flat_map (fun line =>
              clean_text lower_latin_cyrillic line load_russian_stopwords)
           sample_lines.

(** The maximal runs of characters that satisfy [keep]; [cur] is the
    current run, last character first. *)
Fixpoint runs_from (keep : char -> bool) (cur : str) (line : str) : list str :=
  match line with
  | [] => match cur with [] => [] | _ => [rev cur] end
  | c :: t =>
    if keep c then runs_from keep (c :: cur) t
    else match cur with
         | [] => runs_from keep [] t
         | _ => rev cur :: runs_from keep [] t
         end
  end.

(** The maximal runs of lowercase Cyrillic letters of a line. *)
Definition cyrillic_runs (line : str) : list str :=
  runs_from is_cyrillic_lower [] line.

(** ** The test script (lab2_spark/aelita_rdd.py) *)

(** [rdd.flatMap(lambda line: line.split()).collect()] on a collection of
    lines in one partition. *)
Definition flatMap_split (rdd : list str) : list str :=
  flat_map (fun line => split line) rdd.

(** [sc.parallelize(["тест слово ещё одно"])] and what the script prints. *)
Definition script_rdd : list str := [utf8 "тест слово ещё одно"].

Definition script_output : list str := flatMap_split script_rdd.

(** * Properties *)

(** ** Strings *)

Lemma str_eqb_eq (a b : str) : str_eqb a b = true <-> a = b.
Proof.
  revert b; induction a as [|x a IH]; intros [|y b]; simpl; split;
    try congruence; try reflexivity.
  - rewrite andb_true_iff. intros [Hxy Hab].
    apply N.eqb_eq in Hxy. apply IH in Hab. congruence.
  - intros H; injection H as -> ->.
    rewrite andb_true_iff; split; [apply N.eqb_refl | now apply IH].
Qed.

Lemma str_eqb_refl (a : str) : str_eqb a a = true.
Proof. now apply str_eqb_eq. Qed.

(** [endswith] holds exactly of the words that are some stem followed by
    the ending. *)
Lemma endswith_spec (word ending : str) :
  endswith word ending = true <-> exists stem, word = stem ++ ending.
Proof.
  unfold endswith. rewrite andb_true_iff, Nat.leb_le, str_eqb_eq. split.
  - intros [_ H].
    exists (firstn (length word - length ending) word).
    rewrite <- H at 2. symmetry; apply firstn_skipn.
  - intros [stem ->]. rewrite length_app. split; [lia|].
    replace (length stem + length ending - length ending) with (length stem)
      by lia.
    rewrite skipn_app, skipn_all, Nat.sub_diag. reflexivity.
Qed.

Lemma slice_to_neg_app (stem ending : str) :
  ending <> [] -> slice_to_neg (stem ++ ending) (length ending) = stem.
Proof.
  intros Hne. unfold slice_to_neg.
  destruct ending as [|c ending]; [congruence|].
  cbn [length Nat.eqb]. rewrite length_app. cbn [length].
  replace (length stem + S (length ending) - S (length ending))
    with (length stem + 0) by lia.
  now rewrite firstn_app_2, app_nil_r.
Qed.

(** ** Stable sorting *)

Section StableSortFacts.
Variable A : Type.
Variable leb : A -> A -> bool.

Lemma insert_sorted_perm (x : A) (l : list A) :
  Permutation (insert_sorted leb x l) (x :: l).
Proof.
  induction l as [|y l IH]; simpl; [reflexivity|].
  destruct (leb x y); [reflexivity|].
  rewrite IH. apply perm_swap.
Qed.

Lemma stable_sort_perm (l : list A) : Permutation (stable_sort leb l) l.
Proof.
  induction l as [|x l IH]; simpl; [reflexivity|].
  rewrite insert_sorted_perm. now apply perm_skip.
Qed.

Lemma stable_sort_length (l : list A) :
  length (stable_sort leb l) = length l.
Proof. apply Permutation_length, stable_sort_perm. Qed.

Lemma stable_sort_In (l : list A) (x : A) :
  In x (stable_sort leb l) <-> In x l.
Proof.
  split; apply Permutation_in;
    [apply stable_sort_perm | symmetry; apply stable_sort_perm].
Qed.

Hypothesis leb_total : forall x y, leb x y = true \/ leb y x = true.
Hypothesis leb_trans :
  forall x y z, leb x y = true -> leb y z = true -> leb x z = true.

Let le (x y : A) : Prop := leb x y = true.

Lemma insert_sorted_sorted (x : A) (l : list A) :
  StronglySorted le l -> StronglySorted le (insert_sorted leb x l).
Proof.
  induction 1 as [|y l Hl IH Hy]; simpl.
  - constructor; constructor.
  - destruct (leb x y) eqn:Hxy.
    + constructor; [now constructor|].
      constructor; [exact Hxy|].
      eapply Forall_impl; [|exact Hy].
      intros z Hz. now apply leb_trans with y.
    + constructor; [exact IH|].
      assert (Hyx : le y x) by (destruct (leb_total x y); congruence).
      rewrite Forall_forall in *. intros z Hz.
      apply (Permutation_in _ (insert_sorted_perm x l)) in Hz.
      destruct Hz as [<- | Hz]; auto.
Qed.

Lemma stable_sort_sorted (l : list A) :
  StronglySorted le (stable_sort leb l).
Proof.
  induction l as [|x l IH]; simpl;
    [constructor | now apply insert_sorted_sorted].
Qed.

End StableSortFacts.

Lemma StronglySorted_firstn (A : Type) (R : A -> A -> Prop) (n : nat)
  (l : list A) : StronglySorted R l -> StronglySorted R (firstn n l).
Proof.
  intros H; revert n; induction H as [|x l Hl IH Hx]; intros [|n]; simpl;
    try constructor; auto.
  rewrite Forall_forall in *. intros y Hy. apply Hx.
  eapply (In_nth_error) in Hy. destruct Hy as [i Hi].
  rewrite nth_error_firstn in Hi.
  destruct (i <? n); [|discriminate]. eapply nth_error_In; eauto.
Qed.

(** ** The stemmer *)

(** The test of the loop is the rule of the specification. *)
Lemma rule_test_spec (word ending : str) :
  endswith word ending && (length ending + 2 <? length word) = true
  <-> rule_matches word ending.
Proof.
  rewrite andb_true_iff, endswith_spec, Nat.ltb_lt. unfold rule_matches.
  split.
  - intros [[stem ->] Hlen]. exists stem. rewrite length_app in Hlen.
    split; [reflexivity | lia].
  - intros (stem & -> & Hlen). split; [now exists stem|].
    rewrite length_app. lia.
Qed.

Lemma suffix_same_length (s1 s2 e1 e2 : str) :
  s1 ++ e1 = s2 ++ e2 -> length e1 = length e2 -> e1 = e2.
Proof.
  intros Heq Hlen.
  assert (Hs : length s1 = length s2).
  { apply (f_equal (@length _)) in Heq. rewrite !length_app in Heq. lia. }
  apply (f_equal (skipn (length s1))) in Heq.
  rewrite skipn_app, skipn_all, Nat.sub_diag in Heq.
  rewrite Hs, skipn_app, skipn_all, Nat.sub_diag in Heq.
  exact Heq.
Qed.

(** The loop over candidates in descending order of length stops at the
    longest candidate whose rule matches, and removes it. *)
Lemma strip_first_ending_spec (word : str) (candidates : list str) :
  Forall (fun e => e <> []) candidates ->
  StronglySorted (fun a b => (length b <=? length a) = true) candidates ->
  (exists ending stem,
      In ending candidates /\ word = stem ++ ending /\ 2 < length stem /\
      (forall e, In e candidates -> rule_matches word e ->
                 length e <= length ending) /\
      strip_first_ending word candidates = stem)
  \/ ((forall e, In e candidates -> ~ rule_matches word e) /\
      strip_first_ending word candidates = word).
Proof.
  intros Hne Hsorted.
  induction Hsorted as [|c rest Hrest IH Hc]; simpl.
  - right. split; [intros e []| reflexivity].
  - inversion Hne as [|? ? Hc_ne Hrest_ne]; subst.
    destruct (endswith word c && (length c + 2 <? length word)) eqn:Htest.
    + left. apply rule_test_spec in Htest.
      destruct Htest as (stem & -> & Hlen).
      exists c, stem. repeat split; auto.
      * intros e [<- | He] _; [lia|].
        rewrite Forall_forall in Hc. apply Hc, Nat.leb_le in He. exact He.
      * now apply slice_to_neg_app.
    + assert (Hno : ~ rule_matches word c).
      { intros H. apply rule_test_spec in H. congruence. }
      destruct (IH Hrest_ne) as
        [(ending & stem & Hin & Hw & Hlen & Hmax & Hres) | [Hnone Hres]].
      * left. exists ending, stem. repeat split; auto.
        intros e [<- | He] Hm; [contradiction | auto].
      * right. split; [|exact Hres].
        intros e [<- | He]; auto.
Qed.

Lemma endings_nonempty : Forall (fun e : str => e <> []) endings.
Proof.
  apply Forall_forall. intros e He Hnil. subst e.
  revert He. vm_compute. intuition discriminate.
Qed.

Lemma sorted_endings_descending :
  StronglySorted (fun a b : str => (length b <=? length a) = true)
                 (sorted_len_reverse endings).
Proof.
  apply (stable_sort_sorted (fun a b : str => length b <=? length a)).
  - intros x y. rewrite !Nat.leb_le. lia.
  - intros x y z. rewrite !Nat.leb_le. lia.
Qed.

Lemma sorted_len_reverse_In (l : list str) (e : str) :
  In e (sorted_len_reverse l) <-> In e l.
Proof. unfold sorted_len_reverse. apply stable_sort_In. Qed.

(** The stemmer on any word: the longest matching ending is removed, or
    nothing matches and the word is returned. *)
Lemma stemmer_cases (word : str) :
  (exists ending stem,
      In ending endings /\ word = stem ++ ending /\ 2 < length stem /\
      (forall e, In e endings -> rule_matches word e ->
                 length e <= length ending /\
                 (length e = length ending -> e = ending)) /\
      simple_russian_stemmer word = stem)
  \/ ((forall e, In e endings -> ~ rule_matches word e) /\
      simple_russian_stemmer word = word).
Proof.
  unfold simple_russian_stemmer.
  generalize sorted_endings_descending.
  generalize (sorted_len_reverse_In endings).
  generalize endings_nonempty.
  generalize (sorted_len_reverse endings) as sorted.
  generalize endings as table.
  intros table sorted Hne HIn Hsorted.
  rewrite Forall_forall in Hne.
  destruct (@strip_first_ending_spec word sorted)
    as [(ending & stem & Hin & Hw & Hlen & Hmax & Hres) | [Hnone Hres]].
  - apply Forall_forall. intros e He. apply Hne, HIn, He.
  - exact Hsorted.
  - left. exists ending, stem.
    split; [now apply HIn|].
    repeat split; auto.
    + apply Hmax; [now apply HIn | assumption].
    + intros Hl. destruct H0 as (stem' & Hw' & _).
      rewrite Hw in Hw'. symmetry in Hw'.
      now apply (suffix_same_length _ _ _ _ Hw').
  - right. split; [|exact Hres].
    intros e He. apply Hnone. now apply HIn.
Qed.

(** C1: on every word the stemmer removes one suffix, the longest ending
    of the table whose rule matches the word (the word ends with it and
    more than 2 characters remain), and it is the only matching ending of
    that length; when no rule matches, the word is returned unchanged.
    The word "работать" loses "ать" and becomes "работ". *)
Theorem stemmer_strips_longest_matching_ending :
  (forall word : str,
      (exists ending stem,
          In ending endings /\ rule_matches word ending /\
          word = stem ++ ending /\
          (forall e, In e endings -> rule_matches word e ->
                     length e <= length ending /\
                     (length e = length ending -> e = ending)) /\
          simple_russian_stemmer word = stem)
      \/ ((forall e, In e endings -> ~ rule_matches word e) /\
          simple_russian_stemmer word = word))
  /\ simple_russian_stemmer (utf8 "работать") = utf8 "работ"
  /\ utf8 "работать" = utf8 "работ" ++ utf8 "ать".
Proof.
  split; [|split; vm_compute; reflexivity].
  intros word.
  destruct (stemmer_cases word)
    as [(ending & stem & Hin & Hw & Hlen & Hmax & Hres) | H]; [left | now right].
  exists ending, stem. repeat split; auto.
  - now exists stem.
  - now apply Hmax.
  - now apply Hmax.
Qed.

(** The stemmer returns its argument or a strict prefix of it that keeps
    at least 3 characters. *)
Lemma stemmer_same_or_shorter (word : str) :
  simple_russian_stemmer word = word
  \/ (strict_prefix (simple_russian_stemmer word) word
      /\ 3 <= length (simple_russian_stemmer word)).
Proof.
  destruct (stemmer_cases word)
    as [(ending & stem & Hin & Hw & Hlen & _ & Hres) | [_ Hres]];
    [right | now left].
  rewrite Hres. split; [|lia].
  exists ending. split; [|exact Hw].
  pose proof endings_nonempty as Hne. rewrite Forall_forall in Hne. auto.
Qed.

Lemma strict_prefix_length (prefix word : str) :
  strict_prefix prefix word -> length prefix < length word.
Proof.
  intros (rest & Hne & ->). rewrite length_app.
  destruct rest; [congruence | simpl; lia].
Qed.

(** C10: the stemmer returns the word unchanged or a strict prefix of it
    with at least 3 characters; a word of 3 characters or fewer (the empty
    word too) is returned unchanged; and whenever it removes something,
    and on every word of at least 3 characters, at least 3 characters
    are left. *)
Theorem stemmer_keeps_three_characters :
  forall word : str,
    (simple_russian_stemmer word = word
     \/ (strict_prefix (simple_russian_stemmer word) word
         /\ 3 <= length (simple_russian_stemmer word)))
    /\ (length word <= 3 -> simple_russian_stemmer word = word)
    /\ (simple_russian_stemmer word <> word ->
        3 <= length (simple_russian_stemmer word))
    /\ (3 <= length word -> 3 <= length (simple_russian_stemmer word))
    /\ simple_russian_stemmer [] = [].
Proof.
  intros word.
  pose proof (stemmer_same_or_shorter word) as H.
  split; [exact H|].
  repeat split.
  - intros Hlen. destruct H as [H | [Hp H3]]; [exact H|].
    apply strict_prefix_length in Hp. lia.
  - intros Hneq. destruct H as [H | [_ H3]]; [contradiction | exact H3].
  - intros Hlen. destruct H as [-> | [_ H3]]; [exact Hlen | exact H3].
Qed.

(** C7: stemming a stem again gives the same string or a strictly shorter
    one, never a longer one; and it need not give the same string:
    "новостью" becomes "новость", which becomes "нов". *)
Theorem stemmer_twice_never_longer :
  (forall w : str,
      (simple_russian_stemmer (simple_russian_stemmer w)
       = simple_russian_stemmer w
       \/ length (simple_russian_stemmer (simple_russian_stemmer w))
          < length (simple_russian_stemmer w))
      /\ length (simple_russian_stemmer (simple_russian_stemmer w))
         <= length (simple_russian_stemmer w))
  /\ simple_russian_stemmer (utf8 "новостью") = utf8 "новость"
  /\ simple_russian_stemmer (utf8 "новость") = utf8 "нов".
Proof.
  split; [|split; vm_compute; reflexivity].
  intros w.
  destruct (stemmer_same_or_shorter (simple_russian_stemmer w))
    as [H | [Hp _]].
  - rewrite H. split; [now left | lia].
  - apply strict_prefix_length in Hp. split; [now right | lia].
Qed.

(** ** The cleaner *)

Lemma is_cyrillic_lower_spec (c : char) :
  is_cyrillic_lower c = true <-> lowercase_cyrillic c.
Proof.
  unfold is_cyrillic_lower, lowercase_cyrillic.
  rewrite orb_true_iff, andb_true_iff, !N.leb_le, N.eqb_eq. tauto.
Qed.

Lemma lstrip_head (s : str) (c : char) (t : str) :
  lstrip s = c :: t -> is_space c = false.
Proof.
  induction s as [|x s IH]; simpl; [discriminate|].
  destruct (is_space x) eqn:Hx; [exact IH|].
  intros H; injection H as <- _. exact Hx.
Qed.

(** A stripped string does not end with white space. *)
Lemma strip_last (s : str) (c : char) (body : str) :
  rev (strip s) = c :: body -> is_space c = false.
Proof.
  unfold strip, rstrip. rewrite rev_involutive. apply lstrip_head.
Qed.

Lemma cyrillic_plus_spec (s : str) :
  cyrillic_plus s = true -> Forall lowercase_cyrillic s.
Proof.
  destruct s as [|c s]; [discriminate|].
  unfold cyrillic_plus. rewrite forallb_forall, Forall_forall.
  intros H x Hx. now apply is_cyrillic_lower_spec, H.
Qed.

(** On a stripped word the pattern [^[а-яё]+$] accepts Cyrillic words
    only: the newline that [$] tolerates cannot be there. *)
Lemma re_match_cyrillic_strip (w : str) :
  re_match_cyrillic (strip w) = true -> Forall lowercase_cyrillic (strip w).
Proof.
  unfold re_match_cyrillic. rewrite orb_true_iff.
  intros [H | H]; [now apply cyrillic_plus_spec|].
  destruct (rev (strip w)) as [|c body] eqn:Hrev; [discriminate|].
  apply strip_last in Hrev.
  apply andb_true_iff in H. destruct H as [Hc _].
  apply N.eqb_eq in Hc. subst c. discriminate.
Qed.

Lemma str_in_spec (word : str) (stop_words : list str) :
  str_in word stop_words = true <-> In word stop_words.
Proof.
  unfold str_in. rewrite existsb_exists. split.
  - intros (x & Hx & Heq). apply str_eqb_eq in Heq. now subst.
  - intros H. exists word. split; [exact H | apply str_eqb_refl].
Qed.

Lemma cleaned_words_spec (stop_words : list str) (words : list str)
  (word : str) :
  In word (cleaned_words stop_words words) ->
  2 < length word /\ Forall lowercase_cyrillic word
  /\ ~ In word stop_words.
Proof.
  induction words as [|w words IH]; simpl; [intros []|].
  destruct ((2 <? length (strip w)) && negb (str_in (strip w) stop_words)
            && re_match_cyrillic (strip w)) eqn:Htest; [|exact IH].
  intros [<- | Hin]; [|now apply IH].
  apply andb_true_iff in Htest. destruct Htest as [Htest Hre].
  apply andb_true_iff in Htest. destruct Htest as [Hlen Hstop].
  apply Nat.ltb_lt in Hlen. apply negb_true_iff in Hstop.
  repeat split.
  - exact Hlen.
  - now apply re_match_cyrillic_strip.
  - intros Hin. apply str_in_spec in Hin. congruence.
Qed.

(** C2: whatever the line, the case mapping and the stop words (the
    default set among them), every word that [clean_text] returns has
    more than 2 characters, consists of lowercase Cyrillic letters only
    (а to я and ё), and is not a stop word. *)
Theorem clean_text_words_are_clean :
  forall (lower : str -> str) (line : str) (stop_words : list str)
         (word : str),
    In word (clean_text lower line stop_words) ->
    2 < length word /\ Forall lowercase_cyrillic word
    /\ ~ In word stop_words.
Proof.
  intros lower line stop_words word. unfold clean_text.
  destruct (strip line); [intros [] | apply cleaned_words_spec].
Qed.

Lemma clean_text_words_are_clean_witness :
  In (utf8 "мир")
     (clean_text lower_latin_cyrillic (utf8 "Привет, мир! 123 Hello")
                 load_russian_stopwords)
  /\ 2 < length (utf8 "мир") /\ Forall lowercase_cyrillic (utf8 "мир")
  /\ ~ In (utf8 "мир") load_russian_stopwords.
Proof.
  assert (H : In (utf8 "мир")
                 (clean_text lower_latin_cyrillic
                             (utf8 "Привет, мир! 123 Hello")
                             load_russian_stopwords)).
  { vm_compute. right; left; reflexivity. }
  split; [exact H|].
  exact (clean_text_words_are_clean lower_latin_cyrillic _ _ _ H).
Defined.

(** C3: when lowering the line "Привет, мир! 123 Hello" gives
    "привет, мир! 123 hello", [clean_text] with the default stop words
    returns exactly "привет" and "мир": "мир" has 3 characters and is not
    a stop word, and the digits and the Latin word are blanked out. *)
Theorem clean_text_example :
  forall lower : str -> str,
    lower (utf8 "Привет, мир! 123 Hello") = utf8 "привет, мир! 123 hello" ->
    clean_text lower (utf8 "Привет, мир! 123 Hello") load_russian_stopwords
    = [utf8 "привет"; utf8 "мир"]
    /\ length (utf8 "мир") = 3
    /\ str_in (utf8 "мир") load_russian_stopwords = false
    /\ sub_non_cyrillic (utf8 "123 hello") = utf8 "         ".
Proof.
  intros lower Hlower. unfold clean_text. rewrite Hlower.
  repeat split; vm_compute; reflexivity.
Qed.

Lemma clean_text_example_witness :
  clean_text lower_latin_cyrillic (utf8 "Привет, мир! 123 Hello")
             load_russian_stopwords
  = [utf8 "привет"; utf8 "мир"]
  /\ length (utf8 "мир") = 3
  /\ str_in (utf8 "мир") load_russian_stopwords = false
  /\ sub_non_cyrillic (utf8 "123 hello") = utf8 "         ".
Proof.
  apply (clean_text_example lower_latin_cyrillic). vm_compute. reflexivity.
Defined.

(** ** The frequency counter *)

Section MergeValue.
Variable V : Type.
Variable f : V -> V -> V.

Lemma str_eqb_neq (a b : str) : str_eqb a b = false <-> a <> b.
Proof.
  rewrite <- str_eqb_eq. destruct (str_eqb a b); split; congruence.
Qed.

Lemma merge_value_keys (k : str) (v : V) (table : list (str * V)) :
  map fst (merge_value f k v table)
  = if in_dec str_eq_dec k (map fst table) then map fst table
    else map fst table ++ [k].
Proof.
  induction table as [|[k' v'] table IH]; simpl; [reflexivity|].
  destruct (str_eqb k k') eqn:Hk.
  - apply str_eqb_eq in Hk. subst k'.
    destruct (str_eq_dec k k) as [He|Hn]; [reflexivity | congruence].
  - apply str_eqb_neq in Hk.
    simpl. rewrite IH.
    destruct (str_eq_dec k' k) as [He|Hn]; [congruence|].
    destruct (in_dec str_eq_dec k (map fst table)); reflexivity.
Qed.

Lemma merge_value_NoDup (k : str) (v : V) (table : list (str * V)) :
  NoDup (map fst table) -> NoDup (map fst (merge_value f k v table)).
Proof.
  intros H. rewrite merge_value_keys.
  destruct (in_dec str_eq_dec k (map fst table)) as [Hin|Hnin]; [exact H|].
  apply NoDup_app; [exact H | repeat constructor; intros [] |].
  intros x Hx [<- | []]. contradiction.
Qed.

Lemma merge_value_get (k : str) (v : V) (table : list (str * V)) (k' : str) :
  table_get k' (merge_value f k v table)
  = if str_eqb k' k
    then Some (match table_get k table with Some c => f c v | None => v end)
    else table_get k' table.
Proof.
  induction table as [|[k0 v0] table IH]; simpl.
  - destruct (str_eqb k' k); reflexivity.
  - destruct (str_eqb k k0) eqn:Hk; simpl.
    + apply str_eqb_eq in Hk. subst k0.
      destruct (str_eqb k' k); reflexivity.
    + rewrite IH. destruct (str_eqb k' k0) eqn:Hk'; [|reflexivity].
      apply str_eqb_eq in Hk'. subst k0.
      destruct (str_eqb k' k) eqn:Hkk; [|reflexivity].
      apply str_eqb_eq in Hkk. subst k'.
      rewrite str_eqb_refl in Hk. discriminate.
Qed.

(** In a table without repeated keys, the entries are what [table_get]
    finds. *)
Lemma table_get_In (table : list (str * V)) (k : str) (v : V) :
  NoDup (map fst table) ->
  (In (k, v) table <-> table_get k table = Some v).
Proof.
  induction table as [|[k0 v0] table IH]; simpl.
  - intros _. split; [intros [] | discriminate].
  - intros Hnd. inversion Hnd as [|? ? Hnotin Hnd']; subst.
    specialize (IH Hnd').
    destruct (str_eqb k k0) eqn:Hk.
    + apply str_eqb_eq in Hk. subst k0. split.
      * intros [H | H]; [congruence|].
        exfalso. apply Hnotin. apply (in_map fst) in H. exact H.
      * intros H. left. congruence.
    + apply str_eqb_neq in Hk. rewrite <- IH. split.
      * intros [H | H]; [congruence | exact H].
      * now right.
Qed.

End MergeValue.

Lemma wordcount_snoc (words : list str) (word : str) :
  wordcount (words ++ [word])
  = merge_value Z.add word 1%Z (wordcount words).
Proof.
  unfold wordcount, reduceByKey. rewrite map_app, fold_left_app. reflexivity.
Qed.

Lemma occurrences_snoc (words : list str) (word w : str) :
  occurrences (words ++ [word]) w
  = (occurrences words w + if str_eqb w word then 1 else 0)%Z.
Proof.
  unfold occurrences. rewrite count_occ_app. simpl.
  destruct (str_eq_dec word w) as [He|Hn].
  - subst. rewrite str_eqb_refl. lia.
  - assert (H : str_eqb w word = false) by (apply str_eqb_neq; congruence).
    rewrite H. lia.
Qed.

Lemma occurrences_positive (words : list str) (w : str) :
  (0 < occurrences words w)%Z <-> In w words.
Proof.
  unfold occurrences. rewrite (count_occ_In str_eq_dec). lia.
Qed.

Lemma wordcount_NoDup (words : list str) : NoDup (map fst (wordcount words)).
Proof.
  induction words as [|word words IH] using rev_ind.
  - constructor.
  - rewrite wordcount_snoc. now apply merge_value_NoDup.
Qed.

(** The table holds, for each word, the number of its occurrences, and
    nothing for a word that does not occur. *)
Lemma wordcount_get (words : list str) (w : str) :
  table_get w (wordcount words)
  = if (0 <? occurrences words w)%Z then Some (occurrences words w) else None.
Proof.
  induction words as [|word words IH] using rev_ind; [reflexivity|].
  rewrite wordcount_snoc, merge_value_get, occurrences_snoc.
  destruct (str_eqb w word) eqn:Hw.
  - apply str_eqb_eq in Hw. subst word. rewrite IH.
    assert (H0 : (0 <= occurrences words w)%Z) by (unfold occurrences; lia).
    destruct (0 <? occurrences words w)%Z eqn:Hpos.
    + replace (0 <? occurrences words w + 1)%Z with true
        by (symmetry; apply Z.ltb_lt; lia).
      reflexivity.
    + apply Z.ltb_ge in Hpos.
      replace (occurrences words w) with 0%Z by lia. reflexivity.
  - rewrite IH, Z.add_0_r. reflexivity.
Qed.

Lemma wordcount_In (words : list str) (w : str) (c : Z) :
  In (w, c) (wordcount words) <-> In w words /\ c = occurrences words w.
Proof.
  rewrite (table_get_In _ _ _ (wordcount_NoDup words)), wordcount_get.
  rewrite <- occurrences_positive.
  destruct (0 <? occurrences words w)%Z eqn:Hpos.
  - apply Z.ltb_lt in Hpos. split; [intros [= <-]; auto | intros [_ ->]; auto].
  - apply Z.ltb_ge in Hpos. split; [discriminate | intros [H _]; lia].
Qed.

Lemma wordcount_keys (words : list str) (w : str) :
  In w (map fst (wordcount words)) <-> In w words.
Proof.
  rewrite in_map_iff. split.
  - intros ([k c] & <- & Hin). now apply wordcount_In in Hin.
  - intros Hin. exists (w, occurrences words w). split; [reflexivity|].
    now apply wordcount_In.
Qed.

Lemma merge_value_sum (k : str) (v : Z) (table : list (str * Z)) :
  sum_counts (merge_value Z.add k v table) = (sum_counts table + v)%Z.
Proof.
  unfold sum_counts.
  induction table as [|[k' v'] table IH]; simpl; [lia|].
  destruct (str_eqb k k'); simpl; [lia | rewrite IH; lia].
Qed.

Lemma wordcount_sum (words : list str) :
  sum_counts (wordcount words) = Z.of_nat (length words).
Proof.
  induction words as [|word words IH] using rev_ind; [reflexivity|].
  rewrite wordcount_snoc, merge_value_sum, IH, length_app. simpl. lia.
Qed.

Lemma NoDup_of_keys (V : Type) (table : list (str * V)) :
  NoDup (map fst table) -> NoDup table.
Proof. apply NoDup_map_inv. Qed.

Lemma occurrences_perm (words words' : list str) (w : str) :
  Permutation words words' -> occurrences words w = occurrences words' w.
Proof.
  intros Hperm. unfold occurrences. f_equal.
  now apply (Permutation_count_occ str_eq_dec).
Qed.

Lemma wordcount_perm (words words' : list str) :
  Permutation words words' ->
  Permutation (wordcount words) (wordcount words').
Proof.
  intros Hperm.
  apply NoDup_Permutation; try (apply NoDup_of_keys, wordcount_NoDup).
  intros [w c]. rewrite !wordcount_In.
  rewrite (occurrences_perm w Hperm).
  assert (HIn : In w words <-> In w words').
  { split; apply Permutation_in; [exact Hperm | symmetry; exact Hperm]. }
  rewrite HIn. reflexivity.
Qed.

(** C4: for every sequence of words, the table built by pairing each word
    with 1 and adding the counts of equal keys has no key twice, has as
    keys exactly the words of the sequence, holds for each word the number
    of its occurrences, sums to the length of the sequence, and is the same
    collection of entries for every permutation of the sequence. *)
Theorem wordcount_table :
  forall words : list str,
    NoDup (map fst (wordcount words))
    /\ (forall w, In w words <-> In w (map fst (wordcount words)))
    /\ (forall w c, In (w, c) (wordcount words) <->
                    In w words /\ c = occurrences words w)
    /\ sum_counts (wordcount words) = Z.of_nat (length words)
    /\ (forall words', Permutation words words' ->
                       Permutation (wordcount words) (wordcount words')
                       /\ forall w, table_get w (wordcount words)
                                    = table_get w (wordcount words')).
Proof.
  intros words. split; [apply wordcount_NoDup|].
  split; [intros w; symmetry; apply wordcount_keys|].
  split; [apply wordcount_In|].
  split; [apply wordcount_sum|].
  intros words' Hperm. split; [now apply wordcount_perm|].
  intros w. rewrite !wordcount_get.
  now rewrite (occurrences_perm w Hperm).
Qed.

(** ** The ranker *)

Lemma str_leb_spec (a b : str) : str_leb a b = true <-> lex_le a b.
Proof.
  revert b; induction a as [|x a IH]; intros b; simpl.
  - split; [constructor | reflexivity].
  - destruct b as [|y b].
    + split; [discriminate | intros H; inversion H].
    + destruct (x <? y)%N eqn:Hlt.
      * apply N.ltb_lt in Hlt. split; [now constructor | reflexivity].
      * apply N.ltb_ge in Hlt. destruct (x =? y)%N eqn:Heq.
        -- apply N.eqb_eq in Heq. subst y. rewrite IH. split.
           ++ now constructor.
           ++ intros H; inversion H; subst; [lia | assumption].
        -- apply N.eqb_neq in Heq. split; [discriminate|].
           intros H; inversion H; subst; [lia | congruence].
Qed.

Lemma lex_le_total (a b : str) : lex_le a b \/ lex_le b a.
Proof.
  revert b; induction a as [|x a IH]; intros b; [left; constructor|].
  destruct b as [|y b]; [right; constructor|].
  destruct (N.lt_total x y) as [H | [H | H]].
  - left; now constructor.
  - subst y. destruct (IH b); [left | right]; now constructor.
  - right; now constructor.
Qed.

Lemma lex_le_trans (a b c : str) : lex_le a b -> lex_le b c -> lex_le a c.
Proof.
  intros Hab; revert c; induction Hab as [b | x a y b Hlt | x a b Hab IH];
    intros c Hbc.
  - constructor.
  - inversion Hbc; subst; apply lex_le_lt; lia.
  - inversion Hbc; subst; [now apply lex_le_lt | apply lex_le_eq; auto].
Qed.

Lemma str_leb_total (a b : str) : str_leb a b = true \/ str_leb b a = true.
Proof. rewrite !str_leb_spec. apply lex_le_total. Qed.

Lemma str_leb_trans (a b c : str) :
  str_leb a b = true -> str_leb b c = true -> str_leb a c = true.
Proof. rewrite !str_leb_spec. apply lex_le_trans. Qed.

Lemma tuple_leb_spec (a b : Z * str) :
  tuple_leb a b = true
  <-> (fst a < fst b)%Z \/ (fst a = fst b /\ lex_le (snd a) (snd b)).
Proof.
  unfold tuple_leb.
  destruct (fst a <? fst b)%Z eqn:Hlt.
  - apply Z.ltb_lt in Hlt. tauto.
  - apply Z.ltb_ge in Hlt. destruct (fst a =? fst b)%Z eqn:Heq.
    + apply Z.eqb_eq in Heq. rewrite str_leb_spec.
      split; [tauto | intros [H | [_ H]]; [lia | exact H]].
    + apply Z.eqb_neq in Heq. split; [discriminate | intros [H | [H _]]; lia].
Qed.

Lemma tuple_leb_total (a b : Z * str) :
  tuple_leb a b = true \/ tuple_leb b a = true.
Proof.
  rewrite !tuple_leb_spec.
  destruct (Z.lt_total (fst a) (fst b)) as [H | [H | H]]; auto.
  destruct (lex_le_total (snd a) (snd b)); auto.
Qed.

Lemma tuple_leb_trans (a b c : Z * str) :
  tuple_leb a b = true -> tuple_leb b c = true -> tuple_leb a c = true.
Proof.
  rewrite !tuple_leb_spec.
  intros [H1 | [H1 L1]] [H2 | [H2 L2]]; try (left; lia).
  right. split; [lia | now apply lex_le_trans with (snd b)].
Qed.

Lemma StronglySorted_weaken (A : Type) (R R' : A -> A -> Prop) (l : list A) :
  (forall x y, R x y -> R' x y) -> StronglySorted R l -> StronglySorted R' l.
Proof.
  intros Himp. induction 1 as [|x l Hl IH Hx]; constructor; auto.
  eapply Forall_impl; [|exact Hx]. auto.
Qed.

Lemma StronglySorted_app_cross (A : Type) (R : A -> A -> Prop)
  (l1 l2 : list A) :
  StronglySorted R (l1 ++ l2) ->
  forall x y, In x l1 -> In y l2 -> R x y.
Proof.
  induction l1 as [|a l1 IH]; simpl; intros Hs x y Hx Hy; [contradiction|].
  inversion Hs as [|? ? Hs' Ha]; subst.
  destruct Hx as [<- | Hx]; [|now apply IH].
  rewrite Forall_forall in Ha. apply Ha, in_or_app. now right.
Qed.

Lemma In_firstn (A : Type) (n : nat) (l : list A) (x : A) :
  In x (firstn n l) -> In x l.
Proof.
  intros H. rewrite <- (firstn_skipn n l). apply in_or_app. now left.
Qed.

Section TakeOrdered.
Variables A K : Type.
Variable key_leb : K -> K -> bool.
Variable key : A -> K.
Hypothesis key_leb_total :
  forall x y, key_leb x y = true \/ key_leb y x = true.
Hypothesis key_leb_trans :
  forall x y z, key_leb x y = true -> key_leb y z = true -> key_leb x z = true.

Let before (x y : A) : Prop := key_leb (key x) (key y) = true.

Lemma takeOrdered_length (num : nat) (rdd : list A) :
  length (takeOrdered key_leb num key rdd) = Nat.min num (length rdd).
Proof.
  unfold takeOrdered. now rewrite length_firstn, stable_sort_length.
Qed.

Lemma takeOrdered_sorted (num : nat) (rdd : list A) :
  StronglySorted before (takeOrdered key_leb num key rdd).
Proof.
  unfold takeOrdered. apply StronglySorted_firstn.
  apply (stable_sort_sorted (fun x y => key_leb (key x) (key y))).
  - intros x y. apply key_leb_total.
  - intros x y z. apply key_leb_trans.
Qed.

Lemma takeOrdered_In (num : nat) (rdd : list A) (x : A) :
  In x (takeOrdered key_leb num key rdd) -> In x rdd.
Proof.
  unfold takeOrdered. intros H. apply In_firstn in H.
  now apply stable_sort_In in H.
Qed.

Lemma takeOrdered_selects_least (num : nat) (rdd : list A) :
  selects_least before rdd (takeOrdered key_leb num key rdd).
Proof.
  unfold takeOrdered.
  set (sorted := stable_sort (fun x y => key_leb (key x) (key y)) rdd).
  exists (skipn num sorted). split.
  - rewrite firstn_skipn. symmetry. apply stable_sort_perm.
  - apply StronglySorted_app_cross. rewrite firstn_skipn.
    apply (stable_sort_sorted (fun x y => key_leb (key x) (key y))).
    + intros x y. apply key_leb_total.
    + intros x y z. apply key_leb_trans.
Qed.

Lemma takeOrdered_all (num : nat) (rdd : list A) :
  length rdd <= num -> Permutation (takeOrdered key_leb num key rdd) rdd.
Proof.
  intros Hlen. unfold takeOrdered.
  rewrite firstn_all2 by (rewrite stable_sort_length; exact Hlen).
  apply stable_sort_perm.
Qed.

End TakeOrdered.

Lemma top_k_order (x y : str * Z) :
  Z.leb (- snd x) (- snd y) = true <-> (snd y <= snd x)%Z.
Proof. rewrite Z.leb_le. lia. Qed.

Lemma selects_least_weaken (A : Type) (R R' : A -> A -> Prop)
  (rdd selected : list A) :
  (forall x y, R x y -> R' x y) ->
  selects_least R rdd selected -> selects_least R' rdd selected.
Proof.
  intros Himp (rest & Hperm & Hle). exists rest. split; auto.
Qed.

(** C5: for every table, in whatever order its entries are listed, and
    every K, the top-K list has min(K, size of the table) entries, all of
    them entries of the table, with counts that never increase along the
    list, and no entry left out has a larger count than one in the list;
    when K is at least the size, the list holds exactly the entries of
    the table; the empty table gives the empty list. *)
Theorem top_k_ranking :
  forall (k : nat) (table : list (str * Z)),
    length (top_k k table) = Nat.min k (length table)
    /\ StronglySorted (fun x y => (snd y <= snd x)%Z) (top_k k table)
    /\ (forall e, In e (top_k k table) -> In e table)
    /\ selects_least (fun x y => (snd y <= snd x)%Z) table (top_k k table)
    /\ (length table <= k -> Permutation (top_k k table) table)
    /\ top_k k [] = [].
Proof.
  intros k table. unfold top_k.
  assert (Htotal : forall x y : Z, Z.leb x y = true \/ Z.leb y x = true)
    by (intros x y; rewrite !Z.leb_le; lia).
  assert (Htrans : forall x y z : Z,
             Z.leb x y = true -> Z.leb y z = true -> Z.leb x z = true)
    by (intros x y z; rewrite !Z.leb_le; lia).
  split; [apply takeOrdered_length|].
  split.
  { eapply StronglySorted_weaken;
      [|apply (takeOrdered_sorted Z.leb (fun x : str * Z => (- snd x)%Z)
                                  Htotal Htrans)].
    intros x y. apply top_k_order. }
  split; [intros e; apply takeOrdered_In|].
  split.
  { eapply selects_least_weaken;
      [|apply (takeOrdered_selects_least
                 Z.leb (fun x : str * Z => (- snd x)%Z) Htotal Htrans)].
    intros x y. apply top_k_order. }
  split; [apply takeOrdered_all|].
  unfold takeOrdered. simpl. now rewrite firstn_nil.
Qed.

Lemma filter_nonempty (A : Type) (p : A -> bool) (l : list A) :
  (Z.of_nat (length (filter p l)) >? 0)%Z = true
  <-> exists x, In x l /\ p x = true.
Proof.
  rewrite Z.gtb_lt. split.
  - destruct (filter p l) as [|x t] eqn:Hf; simpl; [lia|].
    intros _. exists x. apply filter_In. rewrite Hf. now left.
  - intros (x & Hx). apply filter_In in Hx.
    destruct (filter p l); [contradiction | simpl; lia].
Qed.

Lemma count_word_order (x y : str * Z) :
  tuple_leb (snd x, fst x) (snd y, fst y) = true <-> count_word_le x y.
Proof. apply tuple_leb_spec. Qed.

(** The two cases of the rarity list. *)
Lemma bottom_k_once (k : nat) (table : list (str * Z)) :
  (exists e, In e table /\ snd e = 1%Z) ->
  bottom_k k table
  = takeOrdered str_leb k (fun x => fst x)
                (filter (fun x => (snd x =? 1)%Z) table).
Proof.
  intros (e & He & H1). unfold bottom_k, count.
  replace (Z.of_nat (length (filter (fun x => (snd x =? 1)%Z) table)) >? 0)%Z
    with true; [reflexivity|].
  symmetry. apply filter_nonempty. exists e. split; [exact He|].
  now apply Z.eqb_eq.
Qed.

Lemma bottom_k_fallback (k : nat) (table : list (str * Z)) :
  (forall e, In e table -> snd e <> 1%Z) ->
  bottom_k k table
  = takeOrdered tuple_leb k (fun x => (snd x, fst x)) table.
Proof.
  intros Hnone. unfold bottom_k, count.
  destruct (Z.of_nat (length (filter (fun x => (snd x =? 1)%Z) table)) >? 0)%Z
    eqn:Hc; [|reflexivity].
  apply filter_nonempty in Hc. destruct Hc as (x & Hx & H1).
  apply Z.eqb_eq in H1. now apply Hnone in Hx.
Qed.

(** *** Independence of the order in which the engine lists a table *)

Lemma filter_perm (A : Type) (p : A -> bool) (l l' : list A) :
  Permutation l l' -> Permutation (filter p l) (filter p l').
Proof.
  induction 1 as [|x l l' _ IH|x y l|l l' l'' _ IH1 _ IH2]; simpl.
  - constructor.
  - destruct (p x); [now constructor | exact IH].
  - destruct (p x), (p y); try reflexivity. apply perm_swap.
  - now transitivity (filter p l').
Qed.

(** Two sorted listings of the same elements are equal when the order
    distinguishes the elements. *)
Lemma sorted_perm_unique (A : Type) (R : A -> A -> Prop) (l1 l2 : list A) :
  (forall x y, In x l1 -> In y l1 -> R x y -> R y x -> x = y) ->
  StronglySorted R l1 -> StronglySorted R l2 -> Permutation l1 l2 ->
  l1 = l2.
Proof.
  revert l2. induction l1 as [|x l1 IH]; intros l2 Hanti Hs1 Hs2 Hperm.
  - symmetry. now apply Permutation_nil.
  - destruct l2 as [|y l2].
    { symmetry in Hperm. now apply Permutation_nil_cons in Hperm. }
    inversion Hs1 as [|? ? Hs1' Hx]; subst.
    inversion Hs2 as [|? ? Hs2' Hy]; subst.
    rewrite Forall_forall in Hx, Hy.
    assert (Hxy : x = y).
    { assert (Hy1 : In y (x :: l1)).
      { apply Permutation_in with (y :: l2);
          [now symmetry | now left]. }
      assert (Hx2 : In x (y :: l2)).
      { apply Permutation_in with (x :: l1); [exact Hperm | now left]. }
      destruct Hy1 as [Heq | Hy1]; [exact Heq|].
      destruct Hx2 as [Heq | Hx2]; [now symmetry|].
      apply Hanti; [now left | now right | now apply Hx | now apply Hy]. }
    subst y. f_equal. apply IH; auto.
    + intros a b Ha Hb. apply Hanti; now right.
    + now apply Permutation_cons_inv with x.
Qed.

Lemma lex_le_antisym (a b : str) : lex_le a b -> lex_le b a -> a = b.
Proof.
  induction 1 as [b | x a y b Hlt | x a b Hab IH]; intros Hba.
  - now inversion Hba.
  - inversion Hba; subst; lia.
  - inversion Hba; subst; [lia | f_equal; auto].
Qed.

Lemma same_key_same_entry (V : Type) (table : list (str * V))
  (x y : str * V) :
  NoDup (map fst table) -> In x table -> In y table -> fst x = fst y -> x = y.
Proof.
  intros Hnd Hx Hy Hk. destruct x as [k v], y as [k' v']. simpl in Hk.
  subst k'. f_equal.
  apply ((proj1 (table_get_In table k v Hnd))) in Hx.
  apply ((proj1 (table_get_In table k v' Hnd))) in Hy. congruence.
Qed.

Section TakeOrderedUnique.
Variables A K : Type.
Variable key_leb : K -> K -> bool.
Variable key : A -> K.
Hypothesis key_leb_total :
  forall x y, key_leb x y = true \/ key_leb y x = true.
Hypothesis key_leb_trans :
  forall x y z, key_leb x y = true -> key_leb y z = true -> key_leb x z = true.

(** When no two elements of the collection share a key up to the order,
    [takeOrdered] does not depend on the order of the collection. *)
Lemma takeOrdered_perm (num : nat) (rdd rdd' : list A) :
  (forall x y, In x rdd -> In y rdd ->
               key_leb (key x) (key y) = true ->
               key_leb (key y) (key x) = true -> x = y) ->
  Permutation rdd rdd' ->
  takeOrdered key_leb num key rdd = takeOrdered key_leb num key rdd'.
Proof.
  intros Hanti Hperm. unfold takeOrdered. f_equal.
  apply sorted_perm_unique
    with (R := fun x y => key_leb (key x) (key y) = true).
  - intros x y Hx Hy. apply Hanti; now apply stable_sort_In in Hx, Hy.
  - apply (stable_sort_sorted (fun x y => key_leb (key x) (key y)));
      [intros x y; apply key_leb_total | intros x y z; apply key_leb_trans].
  - apply (stable_sort_sorted (fun x y => key_leb (key x) (key y)));
      [intros x y; apply key_leb_total | intros x y z; apply key_leb_trans].
  - rewrite !stable_sort_perm. exact Hperm.
Qed.

End TakeOrderedUnique.

(** On a table (no word twice) the rarity list does not depend on the
    order in which the entries are listed. *)
Lemma bottom_k_perm (k : nat) (table table' : list (str * Z)) :
  NoDup (map fst table) -> Permutation table table' ->
  bottom_k k table = bottom_k k table'.
Proof.
  intros Hnd Hperm. unfold bottom_k, count.
  pose proof (filter_perm (fun x : str * Z => (snd x =? 1)%Z) Hperm) as Hf.
  rewrite <- (Permutation_length Hf).
  destruct (Z.of_nat (length (filter (fun x => (snd x =? 1)%Z) table)) >? 0)%Z.
  - apply takeOrdered_perm;
      [apply str_leb_total | apply str_leb_trans | | exact Hf].
    intros x y Hx Hy Hxy Hyx.
    apply filter_In in Hx, Hy. destruct Hx as [Hx _], Hy as [Hy _].
    apply str_leb_spec in Hxy, Hyx.
    apply (same_key_same_entry table x y Hnd Hx Hy).
    now apply lex_le_antisym.
  - apply takeOrdered_perm;
      [apply tuple_leb_total | apply tuple_leb_trans | | exact Hperm].
    intros [w c] [w' c'] _ _ Hxy Hyx.
    apply tuple_leb_spec in Hxy, Hyx. simpl in *.
    destruct Hxy as [H1 | [H1 L1]], Hyx as [H2 | [H2 L2]]; try lia.
    subst c'. f_equal. now apply lex_le_antisym.
Qed.

(** C6: for every table and every K, when some word has count 1 the rarity
    list consists of min(K, number of such words) entries of count 1, in
    ascending lexicographic order of the words, and they are the first in
    that order among the words of count 1; otherwise it consists of
    min(K, size) entries in ascending order of (count, word), and no entry
    left out stands before one of them in that order.  The table
    {a:1, b:1, c:2}, however its entries are listed, gives [a, b] for
    K = 50, without c. *)
Theorem bottom_k_ranking :
  (forall (k : nat) (table : list (str * Z)),
      ((exists e, In e table /\ snd e = 1%Z) ->
       length (bottom_k k table)
       = Nat.min k (length (filter (fun x => (snd x =? 1)%Z) table))
       /\ (forall e, In e (bottom_k k table) -> In e table /\ snd e = 1%Z)
       /\ StronglySorted (fun x y => lex_le (fst x) (fst y))
                         (bottom_k k table)
       /\ selects_least (fun x y => lex_le (fst x) (fst y))
                        (filter (fun x => (snd x =? 1)%Z) table)
                        (bottom_k k table))
      /\ ((forall e, In e table -> snd e <> 1%Z) ->
          length (bottom_k k table) = Nat.min k (length table)
          /\ (forall e, In e (bottom_k k table) -> In e table)
          /\ StronglySorted count_word_le (bottom_k k table)
          /\ selects_least count_word_le table (bottom_k k table)))
  /\ (forall table : list (str * Z),
         Permutation table
                     [(utf8 "a", 1%Z); (utf8 "b", 1%Z); (utf8 "c", 2%Z)] ->
         bottom_k 50 table = [(utf8 "a", 1%Z); (utf8 "b", 1%Z)]).
Proof.
  split.
  - intros k table. split.
    + intros Hex. rewrite (bottom_k_once k table Hex).
      split; [apply takeOrdered_length|].
      split.
      { intros e He. apply takeOrdered_In, filter_In in He.
        destruct He as [He H1]. apply Z.eqb_eq in H1. now split. }
      split.
      * eapply StronglySorted_weaken;
          [|apply (takeOrdered_sorted str_leb (fun x : str * Z => fst x)
                                      str_leb_total str_leb_trans)].
        intros x y. apply str_leb_spec.
      * eapply selects_least_weaken;
          [|apply (takeOrdered_selects_least
                     str_leb (fun x : str * Z => fst x)
                     str_leb_total str_leb_trans)].
        intros x y. apply str_leb_spec.
    + intros Hnone. rewrite (bottom_k_fallback k table Hnone).
      split; [apply takeOrdered_length|].
      split; [intros e; apply takeOrdered_In|].
      split.
      * eapply StronglySorted_weaken;
          [|apply (takeOrdered_sorted
                     tuple_leb (fun x : str * Z => (snd x, fst x))
                     tuple_leb_total tuple_leb_trans)].
        intros x y. apply count_word_order.
      * eapply selects_least_weaken;
          [|apply (takeOrdered_selects_least
                     tuple_leb (fun x : str * Z => (snd x, fst x))
                     tuple_leb_total tuple_leb_trans)].
        intros x y. apply count_word_order.
  - intros table Hperm. symmetry in Hperm.
    assert (Hnd : NoDup (map fst [(utf8 "a", 1%Z); (utf8 "b", 1%Z);
                                  (utf8 "c", 2%Z)])).
    { vm_compute. repeat constructor; simpl; intuition discriminate. }
    rewrite <- (bottom_k_perm 50 Hnd Hperm).
    vm_compute. reflexivity.
Qed.

(** ** The pipeline *)

Lemma snd_bind (A B : Type) (m : run A) (k : A -> run B) :
  snd (bind m k)
  = match snd m with inl e => inl e | inr a => snd (k a) end.
Proof.
  destruct m as [out [e | a]]; simpl; [reflexivity|].
  destruct (k a); reflexivity.
Qed.

Lemma fst_bind (A B : Type) (m : run A) (k : A -> run B) :
  fst (bind m k)
  = fst m ++ match snd m with inl e => [] | inr a => fst (k a) end.
Proof.
  destruct m as [out [e | a]]; simpl; [now rewrite app_nil_r|].
  destruct (k a); reflexivity.
Qed.

Lemma percent_of_defined (a b : Z) :
  b <> 0%Z ->
  percent_of a b
  = inr (PrimFloat.mul (PrimFloat.div (float_of_int a) (float_of_int b))
                       (float_of_int 100)).
Proof.
  intros Hb. unfold percent_of, true_div.
  apply Z.eqb_neq in Hb. now rewrite Hb.
Qed.

Lemma print_rows_percentage_returns (total_words : Z) (rows : list (str * Z)) :
  total_words <> 0%Z ->
  forall i, snd (print_rows_percentage total_words i rows) = inr tt.
Proof.
  intros Htotal.
  induction rows as [|[word cnt] rows IH]; intros i;
    cbn [print_rows_percentage]; [reflexivity|].
  rewrite snd_bind. unfold lift. cbn [snd].
  rewrite (percent_of_defined cnt Htotal).
  rewrite snd_bind. cbn [snd print]. apply IH.
Qed.

Lemma print_rows_returns (rows : list (str * Z)) :
  forall i, snd (print_rows i rows) = inr tt.
Proof.
  induction rows as [|[word cnt] rows IH]; intros i;
    cbn [print_rows]; [reflexivity|].
  rewrite snd_bind. cbn [snd print]. apply IH.
Qed.

Lemma count_zero (A : Type) (rdd : list A) : count rdd = 0%Z <-> rdd = [].
Proof.
  unfold count. split; [|intros ->; reflexivity].
  destruct rdd; [reflexivity|]. cbn [length]. lia.
Qed.

(** A table of at least one word has at least one entry. *)
Lemma wordcount_nonempty (words : list str) :
  words <> [] -> count (wordcount words) <> 0%Z.
Proof.
  intros Hne Hz. apply count_zero in Hz.
  pose proof (wordcount_sum words) as Hsum. rewrite Hz in Hsum.
  destruct words; [congruence | cbn [length sum_counts map fold_right] in Hsum; lia].
Qed.

(** The number of entries of the table is the number of distinct words. *)
Lemma wordcount_size (words : list str) :
  length (wordcount words) = length (nodup str_eq_dec words).
Proof.
  rewrite <- (length_map fst). apply Permutation_length.
  apply NoDup_Permutation;
    [apply wordcount_NoDup | apply NoDup_nodup |].
  intros w. rewrite wordcount_keys, nodup_In. reflexivity.
Qed.

Ltac run_step Htotal Hunique :=
  first
    [ rewrite (print_rows_percentage_returns _ Htotal)
    | rewrite print_rows_returns
    | rewrite (percent_of_defined _ Hunique)
    | rewrite snd_bind
    | rewrite fst_bind ];
  cbn [fst snd print lift].

(** Once some word survives cleaning, the run reaches its end without
    raising: every divisor is the number of words or of distinct words. *)
Lemma analyze_text_returns (fs : string -> option (list str))
  (lower : str -> str) (file_path : string) :
  snd (analyze_text fs lower file_path) = inr tt.
Proof.
  unfold analyze_text.
  destruct (fs file_path) as [text_rdd|]; [|reflexivity].
  set (cleaned := flat_map _ text_rdd).
  do 3 (rewrite snd_bind; cbn [snd print]).
  destruct (count cleaned =? 0)%Z eqn:Htotal; [reflexivity|].
  apply Z.eqb_neq in Htotal.
  assert (Hunique : count (wordcount cleaned) <> 0%Z).
  { apply wordcount_nonempty. intros H. apply Htotal. now rewrite H. }
  cbv zeta.
  repeat run_step Htotal Hunique.
  reflexivity.
Qed.

(** C8: a run on a file that does not exist prints the error and nothing
    else, and returns; a run in which no word survives cleaning (an empty
    file among them) prints the count of 0 and the notice and returns,
    with no counting, ranking, stemming or reduction line printed, so
    nothing is divided; and no run at all raises, so [main] prints the
    banner and the lines of the run, never a failure. *)
Theorem analyze_text_aborts_cleanly :
  forall (fs : string -> option (list str)) (lower : str -> str)
         (file_path : string),
    (fs file_path = None ->
     analyze_text fs lower file_path
     = ([ErrorFileNotFound file_path], inr tt))
    /\ (forall text_rdd,
           fs file_path = Some text_rdd ->
           flat_map (fun line => clean_text lower line load_russian_stopwords)
                    text_rdd = [] ->
           analyze_text fs lower file_path
           = ([FileLoaded file_path; Heading 50 "1. TEXT CLEANING";
               TotalWordsAfterCleaning 0; NoWordsFound], inr tt))
    /\ (fs file_path = Some [] ->
        analyze_text fs lower file_path
        = ([FileLoaded file_path; Heading 50 "1. TEXT CLEANING";
            TotalWordsAfterCleaning 0; NoWordsFound], inr tt))
    /\ snd (analyze_text fs lower file_path) = inr tt
    /\ main fs lower
       = Heading 70 "SPARK TEXT ANALYSIS - RUSSIAN LANGUAGE"
         :: fst (analyze_text fs lower "dataset.txt").
Proof.
  intros fs lower file_path.
  assert (Hempty : forall text_rdd,
             fs file_path = Some text_rdd ->
             flat_map (fun line => clean_text lower line load_russian_stopwords)
                      text_rdd = [] ->
             analyze_text fs lower file_path
             = ([FileLoaded file_path; Heading 50 "1. TEXT CLEANING";
                 TotalWordsAfterCleaning 0; NoWordsFound], inr tt)).
  { intros text_rdd Hfs Hclean. unfold analyze_text.
    rewrite Hfs, Hclean. reflexivity. }
  split; [intros Hfs; unfold analyze_text; now rewrite Hfs|].
  split; [exact Hempty|].
  split; [intros Hfs; now apply (Hempty [])|].
  split; [apply analyze_text_returns|].
  unfold main.
  pose proof (analyze_text_returns fs lower "dataset.txt") as Hret.
  destruct (analyze_text fs lower "dataset.txt") as [out [e | u]];
    [discriminate | reflexivity].
Qed.

(** The reduction of the vocabulary that a complete run prints, as a
    function of the words that survive cleaning. *)
Lemma analyze_text_reduction (fs : string -> option (list str))
  (lower : str -> str) (file_path : string) (text_rdd : list str) :
  fs file_path = Some text_rdd ->
  flat_map (fun line => clean_text lower line load_russian_stopwords) text_rdd
  <> [] ->
  forall reduction,
    percent_of
      (count (wordcount
                (flat_map
                   (fun line => clean_text lower line load_russian_stopwords)
                   text_rdd))
       - count (wordcount
                  (map simple_russian_stemmer
                       (flat_map
                          (fun line =>
                             clean_text lower line load_russian_stopwords)
                          text_rdd))))
      (count (wordcount
                (flat_map
                   (fun line => clean_text lower line load_russian_stopwords)
                   text_rdd)))
    = inr reduction ->
    In (VocabularyReduction reduction) (fst (analyze_text fs lower file_path))
    /\ In (SummaryReduction reduction) (fst (analyze_text fs lower file_path)).
Proof.
  intros Hfs Hne reduction. unfold analyze_text. rewrite Hfs.
  set (cleaned := flat_map _ text_rdd) in *.
  assert (Htotal : count cleaned <> 0%Z).
  { intros H. now apply count_zero in H. }
  assert (Hunique : count (wordcount cleaned) <> 0%Z)
    by now apply wordcount_nonempty.
  intros Hred.
  cbv zeta.
  replace (count cleaned =? 0)%Z with false
    by (symmetry; now apply Z.eqb_neq).
  rewrite (percent_of_defined _ Hunique) in Hred. injection Hred as <-.
  rewrite (percent_of_defined _ Hunique).
  split;
    repeat (rewrite fst_bind;
            rewrite ?(print_rows_percentage_returns _ Htotal),
                    ?print_rows_returns;
            cbn [fst snd print lift];
            apply in_or_app;
            first [ solve [left; left; reflexivity] | right ]).
Qed.

(** C9: in every run in which some word survives cleaning, the reduction
    printed in the stemming section and in the summary is
    (unique_original - unique_stemmed) / unique_original * 100, where
    unique_original is the number of distinct cleaned words and
    unique_stemmed the number of distinct stems; for 100 and 80 it is
    printed as 20.0. *)
Theorem vocabulary_reduction_reported :
  forall (fs : string -> option (list str)) (lower : str -> str)
         (file_path : string) (text_rdd : list str),
    fs file_path = Some text_rdd ->
    flat_map (fun line => clean_text lower line load_russian_stopwords)
             text_rdd <> [] ->
    let cleaned :=
      flat_map (fun line => clean_text lower line load_russian_stopwords)
               text_rdd in
    let unique_original := distinct cleaned in
    let unique_stemmed := distinct (map simple_russian_stemmer cleaned) in
    let reduction := vocabulary_reduction unique_original unique_stemmed in
    In (VocabularyReduction reduction) (fst (analyze_text fs lower file_path))
    /\ In (SummaryReduction reduction) (fst (analyze_text fs lower file_path))
    /\ format_1f (vocabulary_reduction 100 80) = "20.0"%string.
Proof.
  intros fs lower file_path text_rdd Hfs Hne cleaned unique_original
         unique_stemmed reduction.
  assert (Hunique : count (wordcount cleaned) <> 0%Z)
    by now apply wordcount_nonempty.
  destruct (@analyze_text_reduction fs lower file_path text_rdd Hfs Hne
                                    reduction) as [H1 H2].
  - fold cleaned. rewrite (percent_of_defined _ Hunique).
    unfold reduction, vocabulary_reduction, unique_original, unique_stemmed,
      distinct, count.
    now rewrite !wordcount_size.
  - split; [exact H1|]. split; [exact H2|].
    vm_compute. reflexivity.
Qed.

Lemma vocabulary_reduction_reported_witness :
  In (VocabularyReduction
        (vocabulary_reduction
           (distinct sample_cleaned)
           (distinct (map simple_russian_stemmer sample_cleaned))))
     (fst (analyze_text sample_fs lower_latin_cyrillic "dataset.txt"))
  /\ In (SummaryReduction
           (vocabulary_reduction
              (distinct sample_cleaned)
              (distinct (map simple_russian_stemmer sample_cleaned))))
        (fst (analyze_text sample_fs lower_latin_cyrillic "dataset.txt"))
  /\ format_1f (vocabulary_reduction 100 80) = "20.0"%string.
Proof.
  refine (@vocabulary_reduction_reported
            sample_fs lower_latin_cyrillic "dataset.txt" sample_lines
            eq_refl _).
  vm_compute. discriminate.
Defined.

(** ** Worked examples *)

Example stemmer_short_word_unchanged :
  simple_russian_stemmer (utf8 "мир") = utf8 "мир"
  /\ simple_russian_stemmer (utf8 "дом") = utf8 "дом"
  /\ simple_russian_stemmer (utf8 "домами") = utf8 "дом".
Proof. repeat split; vm_compute; reflexivity. Qed.

Example wordcount_example :
  wordcount [utf8 "мир"; utf8 "дом"; utf8 "мир"]
  = [(utf8 "мир", 2%Z); (utf8 "дом", 1%Z)].
Proof. vm_compute. reflexivity. Qed.

(** Entries of equal count keep the order in which the table lists them. *)
Example top_k_example :
  top_k 3 [(utf8 "c", 2%Z); (utf8 "b", 3%Z); (utf8 "a", 3%Z); (utf8 "d", 2%Z)]
  = [(utf8 "b", 3%Z); (utf8 "a", 3%Z); (utf8 "c", 2%Z)].
Proof. vm_compute. reflexivity. Qed.

Example bottom_k_fallback_example :
  bottom_k 2 [(utf8 "c", 2%Z); (utf8 "b", 3%Z); (utf8 "a", 3%Z);
              (utf8 "d", 2%Z)]
  = [(utf8 "c", 2%Z); (utf8 "d", 2%Z)].
Proof. vm_compute. reflexivity. Qed.

Example analyze_text_missing_file :
  analyze_text sample_fs lower_latin_cyrillic "missing.txt"
  = ([ErrorFileNotFound "missing.txt"], inr tt).
Proof. reflexivity. Qed.

Example analyze_text_stop_words_only :
  analyze_text (fun _ => Some [utf8 "И в на"; utf8 "Hello 42"])
               lower_latin_cyrillic "dataset.txt"
  = ([FileLoaded "dataset.txt"; Heading 50 "1. TEXT CLEANING";
      TotalWordsAfterCleaning 0; NoWordsFound], inr tt).
Proof. vm_compute. reflexivity. Qed.

Example format_1f_examples :
  format_1f (vocabulary_reduction 6 5) = "16.7"%string
  /\ format_1f (vocabulary_reduction 8 8) = "0.0"%string
  /\ format_1f (vocabulary_reduction 3 1) = "66.7"%string.
Proof. repeat split; vm_compute; reflexivity. Qed.

(** * Further properties of the code *)

(** ** Splitting and the cleaner's tokens *)

Lemma cyrillic_not_space (c : char) :
  is_cyrillic_lower c = true -> is_space c = false.
Proof.
  intros H. apply is_cyrillic_lower_spec in H. unfold is_space.
  destruct H as [[H1 H2] | ->]; [|reflexivity].
  repeat (apply orb_false_iff; split);
    try (apply andb_false_iff);
    rewrite ?N.leb_gt, ?N.eqb_neq; try lia.
  all: try (right; lia).
Qed.

(** Collapsing the runs of white space changes nothing for [split]. *)
Lemma split_from_sub_spaces (line : str) :
  (forall cur, split_from cur (sub_spaces_from false line)
               = split_from cur line)
  /\ split_from [] (sub_spaces_from true line) = split_from [] line.
Proof.
  induction line as [|c t [IHb IHa]]; [split; reflexivity|].
  assert (Hsp : is_space space = true) by reflexivity.
  split.
  - intros cur. cbn [sub_spaces_from split_from].
    destruct (is_space c) eqn:Hc.
    + cbn [split_from]. rewrite Hsp, IHa. reflexivity.
    + cbn [split_from]. rewrite Hc. apply IHb.
  - cbn [sub_spaces_from split_from].
    destruct (is_space c) eqn:Hc; [exact IHa|].
    cbn [split_from]. rewrite Hc. apply IHb.
Qed.

(** Once everything that is not Cyrillic is blanked out, [split] gives the
    runs of Cyrillic letters. *)
Lemma split_from_sub_non_cyrillic (line : str) :
  forall cur, split_from cur (sub_non_cyrillic line)
              = runs_from is_cyrillic_lower cur line.
Proof.
  unfold sub_non_cyrillic.
  induction line as [|c t IH]; intros cur; [reflexivity|].
  cbn [map split_from runs_from].
  destruct (is_cyrillic_lower c) eqn:Hc.
  - cbn [orb]. rewrite (cyrillic_not_space c Hc). apply IH.
  - cbn [orb]. destruct (is_space c) eqn:Hs.
    + rewrite Hs. now rewrite !IH.
    + replace (is_space space) with true by reflexivity. now rewrite !IH.
Qed.

Section Runs.
Variable keep : char -> bool.

Lemma runs_from_drop_tail (tail : str) :
  Forall (fun c => keep c = false) tail ->
  forall line cur, runs_from keep cur (line ++ tail) = runs_from keep cur line.
Proof.
  intros Htail.
  assert (Hbase : forall cur, runs_from keep cur tail = runs_from keep cur []).
  { induction Htail as [|c tail Hc _ IH]; intros cur; [reflexivity|].
    cbn [runs_from]. rewrite Hc.
    destruct cur; rewrite IH; reflexivity. }
  induction line as [|c t IH]; intros cur; [apply Hbase|].
  cbn [app runs_from]. destruct (keep c); [apply IH|].
  destruct cur; now rewrite IH.
Qed.

Lemma runs_from_drop_head (head line : str) :
  Forall (fun c => keep c = false) head ->
  runs_from keep [] (head ++ line) = runs_from keep [] line.
Proof.
  induction 1 as [|c head Hc _ IH]; [reflexivity|].
  cbn [app runs_from]. now rewrite Hc.
Qed.

(** Every run is non-empty and consists of kept characters. *)
Lemma runs_from_tokens (line : str) :
  forall cur, forallb keep cur = true ->
              Forall (fun w => w <> [] /\ forallb keep w = true)
                     (runs_from keep cur line).
Proof.
  assert (Hflush : forall cur : str,
             forallb keep cur = true -> cur <> [] ->
             rev cur <> [] /\ forallb keep (rev cur) = true).
  { intros cur Hcur Hne. split.
    - intros H. apply Hne. apply (f_equal (@rev _)) in H.
      now rewrite rev_involutive in H.
    - rewrite forallb_forall in *. intros x Hx. apply Hcur.
      now apply in_rev. }
  induction line as [|c t IH]; intros cur Hcur; cbn [runs_from].
  - destruct cur as [|x cur]; constructor; [|constructor].
    now apply Hflush.
  - destruct (keep c) eqn:Hc.
    + apply IH. cbn [forallb]. now rewrite Hc.
    + destruct cur as [|x cur]; [now apply IH|].
      constructor; [now apply Hflush | now apply IH].
Qed.

(** The runs, put together, are the kept characters in their order. *)
Lemma runs_from_concat (line : str) :
  forall cur, forallb keep cur = true ->
              concat (runs_from keep cur line)
              = rev cur ++ filter keep line.
Proof.
  induction line as [|c t IH]; intros cur Hcur; cbn [runs_from filter].
  - destruct cur; cbn [concat]; now rewrite ?app_nil_r.
  - destruct (keep c) eqn:Hc.
    + rewrite IH by (cbn [forallb]; now rewrite Hc).
      cbn [rev]. now rewrite <- app_assoc.
    + destruct cur as [|x cur]; cbn [concat]; rewrite IH by reflexivity;
        reflexivity.
Qed.

End Runs.

Lemma lstrip_split (s : str) :
  exists head, s = head ++ lstrip s /\ Forall (fun c => is_space c = true) head.
Proof.
  induction s as [|c s (head & Hs & Hhead)]; [now exists []|].
  cbn [lstrip]. destruct (is_space c) eqn:Hc.
  - exists (c :: head). split; [cbn; now rewrite <- Hs | now constructor].
  - now exists [].
Qed.

Lemma rstrip_split (s : str) :
  exists tail, s = rstrip s ++ tail /\ Forall (fun c => is_space c = true) tail.
Proof.
  unfold rstrip. destruct (lstrip_split (rev s)) as (head & Hs & Hhead).
  exists (rev head). split.
  - rewrite <- rev_app_distr, <- Hs. now rewrite rev_involutive.
  - apply Forall_forall. intros c Hc. apply in_rev in Hc.
    rewrite Forall_forall in Hhead. now apply Hhead.
Qed.

Lemma strip_split (s : str) :
  exists head tail,
    s = head ++ strip s ++ tail
    /\ Forall (fun c => is_space c = true) head
    /\ Forall (fun c => is_space c = true) tail.
Proof.
  destruct (lstrip_split s) as (head & Hs & Hhead).
  destruct (rstrip_split (lstrip s)) as (tail & Hl & Htail).
  exists head, tail. unfold strip. now rewrite <- Hl.
Qed.

Lemma space_not_cyrillic (l : str) :
  Forall (fun c => is_space c = true) l ->
  Forall (fun c => is_cyrillic_lower c = false) l.
Proof.
  apply Forall_impl. intros c Hc.
  destruct (is_cyrillic_lower c) eqn:H; [|reflexivity].
  apply cyrillic_not_space in H. congruence.
Qed.

(** Stripping a line does not change its Cyrillic runs. *)
Lemma cyrillic_runs_strip (line : str) :
  cyrillic_runs (strip line) = cyrillic_runs line.
Proof.
  destruct (strip_split line) as (head & tail & Hline & Hhead & Htail).
  unfold cyrillic_runs. rewrite Hline at 2.
  rewrite runs_from_drop_head by now apply space_not_cyrillic.
  now rewrite runs_from_drop_tail by now apply space_not_cyrillic.
Qed.

Lemma lstrip_id (w : str) :
  Forall (fun c => is_space c = false) w -> lstrip w = w.
Proof. intros [|c t Hc _]; [reflexivity|]. cbn [lstrip]. now rewrite Hc. Qed.

Lemma strip_id (w : str) :
  Forall (fun c => is_space c = false) w -> strip w = w.
Proof.
  intros H. unfold strip, rstrip. rewrite (lstrip_id H).
  rewrite lstrip_id; [apply rev_involutive|].
  apply Forall_forall. intros c Hc. apply in_rev in Hc.
  rewrite Forall_forall in H. now apply H.
Qed.

Lemma cyrillic_word_no_space (w : str) :
  forallb is_cyrillic_lower w = true ->
  Forall (fun c => is_space c = false) w.
Proof.
  rewrite forallb_forall, Forall_forall. intros H c Hc.
  now apply cyrillic_not_space, H.
Qed.

(** On tokens that are Cyrillic words already, the loop of the cleaner
    only applies the length test and the stop words. *)
Lemma cleaned_words_filter (stop_words : list str) (tokens : list str) :
  Forall (fun w => w <> [] /\ forallb is_cyrillic_lower w = true) tokens ->
  cleaned_words stop_words tokens
  = filter (fun w => (2 <? length w) && negb (str_in w stop_words)) tokens.
Proof.
  induction 1 as [|w tokens [Hne Hcyr] _ IH]; [reflexivity|].
  cbn [cleaned_words filter].
  rewrite (strip_id (cyrillic_word_no_space w Hcyr)).
  assert (Hre : re_match_cyrillic w = true).
  { unfold re_match_cyrillic, cyrillic_plus.
    destruct w; [congruence|]. now rewrite Hcyr. }
  rewrite Hre, andb_true_r, IH. reflexivity.
Qed.

Lemma clean_text_nonblank (lower : str -> str) (line : str)
  (stop_words : list str) :
  strip line <> [] ->
  clean_text lower line stop_words
  = filter (fun w => (2 <? length w) && negb (str_in w stop_words))
           (cyrillic_runs (lower line)).
Proof.
  intros Hne. unfold clean_text.
  destruct (strip line); [congruence|].
  unfold split, sub_spaces.
  rewrite (proj1 (split_from_sub_spaces _)), split_from_sub_non_cyrillic.
  fold (cyrillic_runs (strip (lower line))). rewrite cyrillic_runs_strip.
  apply cleaned_words_filter.
  unfold cyrillic_runs. now apply runs_from_tokens.
Qed.

(** A run of kept characters only is one run. *)
Lemma runs_from_word (keep : char -> bool) (w : str) :
  forallb keep w = true ->
  forall cur, runs_from keep cur w
              = match rev cur ++ w with [] => [] | r => [r] end.
Proof.
  induction w as [|c w IH]; intros Hw cur; cbn [runs_from].
  - rewrite app_nil_r. destruct cur as [|x cur]; [reflexivity|].
    destruct (rev (x :: cur)) eqn:Hr; [|reflexivity].
    apply (f_equal (@length _)) in Hr. rewrite length_rev in Hr.
    discriminate.
  - cbn [forallb] in Hw. apply andb_true_iff in Hw. destruct Hw as [Hc Hw].
    rewrite Hc, (IH Hw). cbn [rev]. now rewrite <- app_assoc.
Qed.

(** X1: what [clean_text] returns for a line that is not blank is, in
    order, the maximal runs of lowercase Cyrillic letters of the lowered
    line that have more than 2 letters and are not stop words; a blank
    line gives nothing.  The strip and the pattern test inside the loop
    never change or reject a token. *)
Theorem clean_text_is_cyrillic_runs :
  forall (lower : str -> str) (line : str) (stop_words : list str),
    clean_text lower line stop_words
    = match strip line with
      | [] => []
      | _ => filter (fun w => (2 <? length w) && negb (str_in w stop_words))
                    (cyrillic_runs (lower line))
      end.
Proof.
  intros lower line stop_words.
  destruct (strip line) as [|c t] eqn:Hstrip.
  - unfold clean_text. now rewrite Hstrip.
  - apply clean_text_nonblank. rewrite Hstrip. discriminate.
Qed.

(** X2: a line of white space only, the empty line included, gives no
    words, whatever the case mapping and the stop words. *)
Theorem clean_text_blank_line :
  forall (lower : str -> str) (line : str) (stop_words : list str),
    Forall (fun c => is_space c = true) line ->
    clean_text lower line stop_words = [].
Proof.
  intros lower line stop_words Hblank. unfold clean_text.
  assert (Hl : lstrip line = []).
  { induction Hblank as [|c t Hc _ IH]; [reflexivity|].
    cbn [lstrip]. now rewrite Hc. }
  unfold strip. rewrite Hl. reflexivity.
Qed.

Lemma clean_text_blank_line_witness :
  clean_text lower_latin_cyrillic [32; 9; 160; 10]%N load_russian_stopwords
  = [].
Proof.
  apply clean_text_blank_line. repeat constructor.
Defined.

(** X3: a word that [clean_text] returned is returned again when it is
    cleaned on its own, provided the case mapping leaves it as it is:
    cleaning twice changes nothing. *)
Theorem clean_text_fixes_cleaned_word :
  forall (lower : str -> str) (line : str) (stop_words : list str)
         (word : str),
    In word (clean_text lower line stop_words) ->
    lower word = word ->
    clean_text lower word stop_words = [word].
Proof.
  intros lower line stop_words word Hin Hlower.
  assert (Hword : 2 < length word /\ forallb is_cyrillic_lower word = true
                  /\ str_in word stop_words = false).
  { destruct (strip line) as [|c t] eqn:Hstrip.
    { unfold clean_text in Hin. rewrite Hstrip in Hin. destruct Hin. }
    rewrite clean_text_nonblank in Hin by (rewrite Hstrip; discriminate).
    apply filter_In in Hin. destruct Hin as [Hrun Htest].
    apply andb_true_iff in Htest. destruct Htest as [Hlen Hstop].
    apply Nat.ltb_lt in Hlen. apply negb_true_iff in Hstop.
    split; [exact Hlen|]. split; [|exact Hstop].
    pose proof (runs_from_tokens is_cyrillic_lower (lower line) []
                                 eq_refl) as Htok.
    rewrite Forall_forall in Htok. now apply Htok. }
  destruct Hword as (Hlen & Hcyr & Hstop).
  assert (Hstrip : strip word = word)
    by apply (strip_id (cyrillic_word_no_space word Hcyr)).
  rewrite clean_text_nonblank
    by (rewrite Hstrip; destruct word; [cbn in Hlen; lia | discriminate]).
  rewrite Hlower. unfold cyrillic_runs.
  rewrite (runs_from_word is_cyrillic_lower word Hcyr). cbn [rev app].
  destruct word as [|c word]; [cbn in Hlen; lia|].
  cbn [filter]. apply Nat.ltb_lt in Hlen. now rewrite Hlen, Hstop.
Qed.

Lemma clean_text_fixes_cleaned_word_witness :
  clean_text lower_latin_cyrillic (utf8 "мир") load_russian_stopwords
  = [utf8 "мир"].
Proof.
  apply (@clean_text_fixes_cleaned_word
           lower_latin_cyrillic (utf8 "Привет, мир! 123 Hello")
           load_russian_stopwords (utf8 "мир")).
  - vm_compute. right; left; reflexivity.
  - vm_compute. reflexivity.
Defined.

(** ** The stemmer and the stemming stage *)

Lemma endings_at_most_four :
  Forall (fun e : str => length e <= 4) endings.
Proof.
  apply Forall_forall. intros e He.
  assert (H : forallb (fun e : str => length e <=? 4) endings = true)
    by (vm_compute; reflexivity).
  rewrite forallb_forall in H. now apply Nat.leb_le, H.
Qed.

(** X4: the stemmer cuts a word at its end and never takes more than 4
    characters: the word is its stem followed by what was removed, which
    is nothing or an ending of the table. *)
Theorem stemmer_removes_at_most_four :
  forall word : str,
    exists removed,
      word = simple_russian_stemmer word ++ removed
      /\ (removed = [] \/ In removed endings)
      /\ length removed <= 4
      /\ length word - 4 <= length (simple_russian_stemmer word)
         <= length word.
Proof.
  intros word.
  destruct (stemmer_cases word)
    as [(ending & stem & Hin & Hw & _ & _ & Hres) | [_ Hres]].
  - exists ending. rewrite Hres.
    pose proof endings_at_most_four as H4. rewrite Forall_forall in H4.
    specialize (H4 ending Hin).
    split; [exact Hw|]. split; [now right|]. split; [exact H4|].
    pose proof (f_equal (@length _) Hw) as Hl.
    rewrite length_app in Hl. lia.
  - exists []. rewrite Hres, app_nil_r.
    split; [reflexivity|]. split; [now left|]. simpl. lia.
Qed.

Lemma clean_text_word (lower : str -> str) (line : str)
  (stop_words : list str) (word : str) :
  In word (clean_text lower line stop_words) ->
  2 < length word /\ Forall lowercase_cyrillic word.
Proof.
  unfold clean_text. destruct (strip line); [intros []|].
  intros H. apply cleaned_words_spec in H. tauto.
Qed.

(** X5: the stem of a word that the cleaner returned still has at least 3
    characters, all of them lowercase Cyrillic letters; it can be a stop
    word, though: "этому" passes the cleaner and its stem "этом" is in the
    default set. *)
Theorem stem_of_cleaned_word :
  (forall (lower : str -> str) (line : str) (stop_words : list str)
          (word : str),
      In word (clean_text lower line stop_words) ->
      3 <= length (simple_russian_stemmer word)
      /\ Forall lowercase_cyrillic (simple_russian_stemmer word))
  /\ clean_text lower_latin_cyrillic (utf8 "этому") load_russian_stopwords
     = [utf8 "этому"]
  /\ simple_russian_stemmer (utf8 "этому") = utf8 "этом"
  /\ str_in (utf8 "этом") load_russian_stopwords = true.
Proof.
  split; [|repeat split; vm_compute; reflexivity].
  intros lower line stop_words word Hin.
  apply clean_text_word in Hin. destruct Hin as [Hlen Hcyr].
  destruct (stemmer_same_or_shorter word) as [-> | [(rest & _ & Hw) H3]].
  - split; [lia | exact Hcyr].
  - split; [exact H3|].
    rewrite Hw in Hcyr. now apply Forall_app in Hcyr.
Qed.

Lemma nodup_map_length (f : str -> str) (words : list str) :
  length (nodup str_eq_dec (map f words))
  <= length (nodup str_eq_dec words).
Proof.
  rewrite <- (length_map f (nodup str_eq_dec words)).
  apply NoDup_incl_length; [apply NoDup_nodup|].
  intros x Hx. apply nodup_In, in_map_iff in Hx.
  destruct Hx as (y & <- & Hy).
  apply in_map. now apply nodup_In.
Qed.

(** X6: stemming never enlarges the vocabulary, and the table of the
    stems still accounts for every word: it has at most as many entries
    as the table of the words, its counts add up to the number of words,
    and the difference that the reduction divides is never negative. *)
Theorem stemming_shrinks_vocabulary :
  forall words : list str,
    (count (wordcount (map simple_russian_stemmer words))
     <= count (wordcount words))%Z
    /\ sum_counts (wordcount (map simple_russian_stemmer words))
       = count words
    /\ (0 <= count (wordcount words)
             - count (wordcount (map simple_russian_stemmer words)))%Z.
Proof.
  intros words.
  assert (H : (count (wordcount (map simple_russian_stemmer words))
               <= count (wordcount words))%Z).
  { unfold count. rewrite !wordcount_size.
    apply Nat2Z.inj_le, nodup_map_length. }
  split; [exact H|]. split; [|lia].
  rewrite wordcount_sum, length_map. reflexivity.
Qed.

(** X7: every count of the table is at least 1 and at most the number of
    words counted, and the table has at most as many entries as there are
    words. *)
Theorem wordcount_counts_bounded :
  forall (words : list str) (w : str) (c : Z),
    In (w, c) (wordcount words) ->
    (1 <= c <= count words)%Z
    /\ (count (wordcount words) <= count words)%Z.
Proof.
  intros words w c Hin. apply wordcount_In in Hin.
  destruct Hin as [Hw ->].
  apply occurrences_positive in Hw.
  split.
  - split; [lia|]. unfold occurrences, count.
    apply Nat2Z.inj_le, count_occ_bound.
  - unfold count. rewrite wordcount_size.
    apply Nat2Z.inj_le.
    apply NoDup_incl_length; [apply NoDup_nodup|].
    intros x Hx. now apply nodup_In in Hx.
Qed.

Lemma wordcount_counts_bounded_witness :
  (1 <= 2 <= count [utf8 "мир"; utf8 "дом"; utf8 "мир"])%Z
  /\ (count (wordcount [utf8 "мир"; utf8 "дом"; utf8 "мир"])
      <= count [utf8 "мир"; utf8 "дом"; utf8 "мир"])%Z.
Proof.
  apply (@wordcount_counts_bounded
           [utf8 "мир"; utf8 "дом"; utf8 "мир"] (utf8 "мир") 2%Z).
  vm_compute. left; reflexivity.
Defined.

(** ** The ranker and the summary *)

Lemma top_k_head (k : nat) (table : list (str * Z)) (first : str * Z)
  (rest : list (str * Z)) :
  top_k k table = first :: rest ->
  In first table /\ forall e, In e table -> (snd e <= snd first)%Z.
Proof.
  unfold top_k, takeOrdered.
  set (leb := fun x y : str * Z => (- snd x <=? - snd y)%Z).
  intros Htop.
  assert (Hsorted : StronglySorted (fun x y => leb x y = true)
                                   (stable_sort leb table)).
  { apply stable_sort_sorted; unfold leb.
    - intros x y. rewrite !Z.leb_le. lia.
    - intros x y z. rewrite !Z.leb_le. lia. }
  destruct (stable_sort leb table) as [|x sorted] eqn:Hs.
  { now rewrite firstn_nil in Htop. }
  destruct k as [|k]; [discriminate|].
  cbn [firstn] in Htop. injection Htop as <- _.
  assert (Hin : forall e, In e table <-> In e (x :: sorted)).
  { intros e. rewrite <- Hs. symmetry. apply stable_sort_In. }
  split; [apply Hin; now left|].
  intros e He. apply Hin in He.
  inversion Hsorted as [|? ? _ Hx]; subst.
  destruct He as [<- | He]; [lia|].
  rewrite Forall_forall in Hx. specialize (Hx e He).
  unfold leb in Hx. apply Z.leb_le in Hx. lia.
Qed.

(** X8: the entry that the summary names as the most common word is an
    entry of the table and no entry has a larger count, whenever the table
    is not empty and at least one entry is asked for; on the empty table
    it is the placeholder "N/A" with count 0. *)
Theorem most_common_is_maximal :
  forall (k : nat) (table : list (str * Z)),
    (0 < k -> table <> [] ->
     In (hd not_available (top_k k table)) table
     /\ forall e, In e table ->
                  (snd e <= snd (hd not_available (top_k k table)))%Z)
    /\ hd not_available (top_k k []) = (utf8 "N/A", 0%Z).
Proof.
  intros k table. split.
  - intros Hk Hne.
    destruct (top_k k table) as [|first rest] eqn:Htop.
    + exfalso. apply (f_equal (@length _)) in Htop.
      unfold top_k in Htop. rewrite takeOrdered_length in Htop.
      destruct table; [congruence | simpl in Htop; lia].
    + cbn [hd]. now apply top_k_head with k rest.
  - unfold top_k, takeOrdered. simpl. now rewrite firstn_nil.
Qed.

Lemma NoDup_firstn_keys (V : Type) (n : nat) (table : list (str * V)) :
  NoDup (map fst table) -> NoDup (map fst (firstn n table)).
Proof.
  intros H. rewrite <- (firstn_skipn n table), map_app in H.
  now apply NoDup_app_remove_r in H.
Qed.

Lemma NoDup_filter_keys (V : Type) (p : str * V -> bool)
  (table : list (str * V)) :
  NoDup (map fst table) -> NoDup (map fst (filter p table)).
Proof.
  induction table as [|e table IH]; [constructor|].
  cbn [map filter]. intros H. inversion H as [|? ? Hnotin Hnd]; subst.
  destruct (p e); [|now apply IH].
  cbn [map]. constructor; [|now apply IH].
  intros Hin. apply Hnotin. apply in_map_iff in Hin.
  destruct Hin as (x & Hx & Hxin). apply filter_In in Hxin.
  rewrite <- Hx. apply in_map. tauto.
Qed.

Lemma takeOrdered_keys (K : Type) (key_leb : K -> K -> bool) (num : nat)
  (key : str * Z -> K) (table : list (str * Z)) :
  NoDup (map fst table) ->
  NoDup (map fst (takeOrdered key_leb num key table)).
Proof.
  intros H. unfold takeOrdered. apply NoDup_firstn_keys.
  eapply Permutation_NoDup; [|exact H].
  apply Permutation_map. symmetry. apply stable_sort_perm.
Qed.

(** X9: when no word occurs twice in the table, no word occurs twice in
    the list of the most common words or in the list of the least common
    words; the lists that the run ranks are of that kind. *)
Theorem rankings_list_no_word_twice :
  (forall (k : nat) (table : list (str * Z)),
      NoDup (map fst table) ->
      NoDup (map fst (top_k k table)) /\ NoDup (map fst (bottom_k k table)))
  /\ (forall (k : nat) (words : list str),
         NoDup (map fst (top_k k (wordcount words)))
         /\ NoDup (map fst (bottom_k k (wordcount words)))).
Proof.
  assert (H : forall (k : nat) (table : list (str * Z)),
             NoDup (map fst table) ->
             NoDup (map fst (top_k k table))
             /\ NoDup (map fst (bottom_k k table))).
  { intros k table Hnd. split.
    - now apply takeOrdered_keys.
    - unfold bottom_k.
      destruct (count (filter (fun x => (snd x =? 1)%Z) table) >? 0)%Z.
      + now apply takeOrdered_keys, NoDup_filter_keys.
      + now apply takeOrdered_keys. }
  split; [exact H|].
  intros k words. apply H, wordcount_NoDup.
Qed.

Lemma StronglySorted_map (A B : Type) (f : A -> B) (R : B -> B -> Prop)
  (l : list A) :
  StronglySorted (fun x y => R (f x) (f y)) l -> StronglySorted R (map f l).
Proof.
  induction 1 as [|x l _ IH Hx]; cbn [map]; constructor; [exact IH|].
  rewrite Forall_forall in *. intros y Hy.
  apply in_map_iff in Hy. destruct Hy as (z & <- & Hz). now apply Hx.
Qed.

Lemma top_k_counts_perm (k : nat) (table table' : list (str * Z)) :
  Permutation table table' ->
  map snd (top_k k table) = map snd (top_k k table').
Proof.
  intros Hperm. unfold top_k, takeOrdered. rewrite <- !firstn_map. f_equal.
  set (leb := fun x y : str * Z => (- snd x <=? - snd y)%Z).
  assert (Hsorted : forall t, StronglySorted (fun a b => (b <= a)%Z)
                                             (map snd (stable_sort leb t))).
  { intros t. apply StronglySorted_map.
    eapply StronglySorted_weaken;
      [|apply (stable_sort_sorted leb); unfold leb].
    - intros x y. unfold leb. rewrite Z.leb_le. lia.
    - intros x y. rewrite !Z.leb_le. lia.
    - intros x y z. rewrite !Z.leb_le. lia. }
  apply sorted_perm_unique with (R := fun a b => (b <= a)%Z); auto.
  - intros x y _ _. lia.
  - apply Permutation_map. rewrite !stable_sort_perm. exact Hperm.
Qed.

(** X10: the order in which the engine lists a table (no word twice)
    changes neither the list of the least common words nor the counts of
    the list of the most common words.  The words among the most common
    can change when counts are equal: of two words with count 1, the one
    listed first is the top 1. *)
Theorem rankings_and_listing_order :
  forall (k : nat) (table table' : list (str * Z)),
    NoDup (map fst table) ->
    Permutation table table' ->
    bottom_k k table = bottom_k k table'
    /\ map snd (top_k k table) = map snd (top_k k table')
    /\ top_k 1 [(utf8 "a", 1%Z); (utf8 "b", 1%Z)] = [(utf8 "a", 1%Z)]
    /\ top_k 1 [(utf8 "b", 1%Z); (utf8 "a", 1%Z)] = [(utf8 "b", 1%Z)].
Proof.
  intros k table table' Hnd Hperm.
  split; [now apply bottom_k_perm|].
  split; [now apply top_k_counts_perm|].
  split; vm_compute; reflexivity.
Qed.

Lemma rankings_and_listing_order_witness :
  bottom_k 2 [(utf8 "b", 1%Z); (utf8 "c", 2%Z); (utf8 "a", 1%Z)]
  = bottom_k 2 [(utf8 "a", 1%Z); (utf8 "b", 1%Z); (utf8 "c", 2%Z)]
  /\ map snd (top_k 2 [(utf8 "b", 1%Z); (utf8 "c", 2%Z); (utf8 "a", 1%Z)])
     = map snd (top_k 2 [(utf8 "a", 1%Z); (utf8 "b", 1%Z); (utf8 "c", 2%Z)])
  /\ top_k 1 [(utf8 "a", 1%Z); (utf8 "b", 1%Z)] = [(utf8 "a", 1%Z)]
  /\ top_k 1 [(utf8 "b", 1%Z); (utf8 "a", 1%Z)] = [(utf8 "b", 1%Z)].
Proof.
  apply rankings_and_listing_order.
  - vm_compute. repeat constructor; simpl; intuition discriminate.
  - change (Permutation ([(utf8 "b", 1%Z); (utf8 "c", 2%Z)]
                         ++ [(utf8 "a", 1%Z)])
                        ((utf8 "a", 1%Z)
                         :: [(utf8 "b", 1%Z); (utf8 "c", 2%Z)])).
    symmetry. apply Permutation_cons_append.
Defined.

(** ** The run as a whole *)

Lemma analyze_text_complete (fs : string -> option (list str))
  (lower : str -> str) (file_path : string) (text_rdd : list str) :
  fs file_path = Some text_rdd ->
  flat_map (fun line => clean_text lower line load_russian_stopwords) text_rdd
  <> [] ->
  exists before,
    fst (analyze_text fs lower file_path) = before ++ [Completed].
Proof.
  intros Hfs Hne. unfold analyze_text. rewrite Hfs.
  set (cleaned := flat_map _ text_rdd) in *.
  assert (Htotal : count cleaned <> 0%Z).
  { intros H. now apply count_zero in H. }
  assert (Hunique : count (wordcount cleaned) <> 0%Z)
    by now apply wordcount_nonempty.
  cbv zeta.
  replace (count cleaned =? 0)%Z with false
    by (symmetry; now apply Z.eqb_neq).
  rewrite (percent_of_defined _ Hunique).
  repeat (rewrite fst_bind;
          rewrite ?(print_rows_percentage_returns _ Htotal),
                  ?print_rows_returns;
          cbn [fst snd print lift]).
  rewrite !app_assoc. eexists. reflexivity.
Qed.

(** X11: a run ends with the line of success exactly when the file exists
    and some word survives cleaning, and then that line is the last one;
    when the file is missing or no word survives, the line is not
    printed. *)
Theorem run_completes_iff_words_survive :
  forall (fs : string -> option (list str)) (lower : str -> str)
         (file_path : string),
    (In Completed (fst (analyze_text fs lower file_path))
     <-> exists text_rdd,
        fs file_path = Some text_rdd
        /\ flat_map (fun line => clean_text lower line load_russian_stopwords)
                    text_rdd <> [])
    /\ (In Completed (fst (analyze_text fs lower file_path)) ->
        exists before,
          fst (analyze_text fs lower file_path) = before ++ [Completed]).
Proof.
  intros fs lower file_path.
  assert (Hiff : In Completed (fst (analyze_text fs lower file_path))
                 <-> exists text_rdd,
             fs file_path = Some text_rdd
             /\ flat_map
                  (fun line => clean_text lower line load_russian_stopwords)
                  text_rdd <> []).
  { split.
    - destruct (fs file_path) as [text_rdd|] eqn:Hfs.
      + destruct (flat_map
                    (fun line =>
                       clean_text lower line load_russian_stopwords)
                    text_rdd) eqn:Hclean.
        * unfold analyze_text. rewrite Hfs, Hclean. simpl.
          intuition discriminate.
        * intros _. exists text_rdd. split; [reflexivity|].
          rewrite Hclean. discriminate.
      + unfold analyze_text. rewrite Hfs. simpl. intuition discriminate.
    - intros (text_rdd & Hfs & Hne).
      destruct (analyze_text_complete fs lower file_path Hfs Hne)
        as [before ->].
      apply in_or_app. right. now left. }
  split; [exact Hiff|].
  intros Hin. apply Hiff in Hin. destruct Hin as (text_rdd & Hfs & Hne).
  now apply analyze_text_complete with text_rdd.
Qed.

(** ** The test script *)

Lemma split_from_runs (line : str) :
  forall cur, split_from cur line
              = runs_from (fun c => negb (is_space c)) cur line.
Proof.
  induction line as [|c t IH]; intros cur; [reflexivity|].
  cbn [split_from runs_from]. destruct (is_space c); cbn [negb].
  - destruct cur; now rewrite IH.
  - apply IH.
Qed.

(** X12: [flatMap] of [split] loses white space and nothing else: the
    words, put together, are the characters of the lines that are not
    white space, in their order, and every word is non-empty and free of
    white space; lines of white space only give no word.  On the line of
    the script the words are "тест", "слово", "ещё", "одно". *)
Theorem flatMap_split_keeps_all_but_space :
  (forall rdd : list str,
      concat (flatMap_split rdd)
      = filter (fun c => negb (is_space c)) (concat rdd)
      /\ Forall (fun w => w <> [] /\ Forall (fun c => is_space c = false) w)
                (flatMap_split rdd))
  /\ script_output = [utf8 "тест"; utf8 "слово"; utf8 "ещё"; utf8 "одно"].
Proof.
  split; [|vm_compute; reflexivity].
  intros rdd. unfold flatMap_split. split.
  - induction rdd as [|line rdd IH]; [reflexivity|].
    cbn [flat_map concat]. rewrite concat_app, filter_app, IH. f_equal.
    unfold split. rewrite split_from_runs.
    now rewrite runs_from_concat.
  - apply Forall_forall. intros w Hw. apply in_flat_map in Hw.
    destruct Hw as (line & _ & Hw). unfold split in Hw.
    rewrite split_from_runs in Hw.
    pose proof (runs_from_tokens (fun c => negb (is_space c)) line []
                                 eq_refl) as Htok.
    rewrite Forall_forall in Htok. destruct (Htok w Hw) as [Hne Hall].
    split; [exact Hne|].
    rewrite forallb_forall in Hall. apply Forall_forall.
    intros c Hc. now apply negb_true_iff, Hall.
Qed.

(** ** Counting stems *)

Lemma merge_value_sum_filter (p : str -> bool) (k : str)
  (table : list (str * Z)) :
  sum_counts (filter (fun e => p (fst e)) (merge_value Z.add k 1%Z table))
  = (sum_counts (filter (fun e => p (fst e)) table)
     + if p k then 1 else 0)%Z.
Proof.
  unfold sum_counts.
  induction table as [|[k' v'] table IH]; cbn [merge_value filter fst].
  - destruct (p k); cbn; lia.
  - destruct (str_eqb k k') eqn:Hk.
    + apply str_eqb_eq in Hk. subst k'. cbn [filter fst].
      destruct (p k); cbn [map fold_right snd]; lia.
    + cbn [filter fst].
      destruct (p k'); cbn [map fold_right snd]; rewrite IH; lia.
Qed.

(** The counts of the words that satisfy a test add up to the number of
    such words in the sequence. *)
Lemma wordcount_sum_filter (p : str -> bool) (words : list str) :
  sum_counts (filter (fun e => p (fst e)) (wordcount words))
  = Z.of_nat (length (filter p words)).
Proof.
  induction words as [|word words IH] using rev_ind; [reflexivity|].
  rewrite wordcount_snoc, merge_value_sum_filter, IH, filter_app, length_app.
  cbn [filter]. destruct (p word); cbn [length]; lia.
Qed.

Lemma occurrences_map (f : str -> str) (words : list str) (s : str) :
  occurrences (map f words) s
  = Z.of_nat (length (filter (fun w => str_eqb (f w) s) words)).
Proof.
  unfold occurrences. f_equal.
  induction words as [|w words IH]; [reflexivity|].
  cbn [map count_occ filter].
  destruct (str_eq_dec (f w) s) as [He | Hn].
  - subst s. rewrite str_eqb_refl. cbn [length]. now rewrite IH.
  - apply str_eqb_neq in Hn. now rewrite Hn.
Qed.

(** X13: in the table of the stems, the count of a stem is the sum of the
    counts that the table of the words holds for the words with that stem;
    a string that is the stem of no word has no entry. *)
Theorem stem_count_sums_word_counts :
  forall (words : list str) (stem : str),
    table_get stem (wordcount (map simple_russian_stemmer words))
    = if existsb (fun w => str_eqb (simple_russian_stemmer w) stem) words
      then Some (sum_counts
                   (filter (fun e =>
                              str_eqb (simple_russian_stemmer (fst e)) stem)
                           (wordcount words)))
      else None.
Proof.
  intros words stem.
  rewrite wordcount_get, occurrences_map.
  rewrite (wordcount_sum_filter
             (fun w => str_eqb (simple_russian_stemmer w) stem)).
  destruct (existsb _ words) eqn:Hex.
  - apply existsb_exists in Hex. destruct Hex as (w & Hw & Hs).
    assert (Hin : In w (filter (fun w => str_eqb (simple_russian_stemmer w)
                                                 stem) words))
      by (apply filter_In; now split).
    destruct (filter _ words); [destruct Hin|]. reflexivity.
  - destruct (filter _ words) as [|w rest] eqn:Hf; [reflexivity|].
    assert (Hin : In w (filter (fun w => str_eqb (simple_russian_stemmer w)
                                                 stem) words))
      by (rewrite Hf; now left).
    apply filter_In in Hin. destruct Hin as [Hw Hs].
    assert (Hex' : existsb (fun w => str_eqb (simple_russian_stemmer w) stem)
                           words = true)
      by (apply existsb_exists; now exists w).
    congruence.
Qed.

Example stem_count_example :
  wordcount (map simple_russian_stemmer
                 [utf8 "новость"; utf8 "новый"; utf8 "новость"; utf8 "дом"])
  = [(utf8 "нов", 3%Z); (utf8 "дом", 1%Z)].
Proof. vm_compute. reflexivity. Qed.
